(** * salmon::utils (SalmonUtils.cpp): library-format scoring, fragment
    classification and abundance output.

    The development embeds [logAlignFormatProb], the two overloads of
    [hitType] and [writeAbundances] of [src/src/SalmonUtils.cpp] and proves
    properties of them.  Enumerations and records follow the C++ types;
    [double] arithmetic is an interface with an IEEE binary64 instance
    (Rocq's primitive floats) and an exact instance over the real numbers. *)

From Stdlib Require Import Bool List NArith ZArith Lia String.
From Stdlib Require Import Floats.
From Stdlib Require Import Reals Lra.
Import ListNotations.

Set Implicit Arguments.

(** ** LibraryFormat *)

(** Modelled from the spec: [LibraryFormat.hpp] is not among the sources; the
    three enum classes and the [LibraryFormat] value type are the ones the
    data model lists (type, orientation, strandedness).  Each enum class is a
    module, so that [ReadStrandedness.S] reads like [ReadStrandedness::S];
    [eqb] is its [==]. *)
Module ReadType.
Inductive t : Type := SINGLE_END | PAIRED_END.

Definition eqb (a b : t) : bool :=
  match a, b with
  | SINGLE_END, SINGLE_END | PAIRED_END, PAIRED_END => true
  | _, _ => false
  end.
End ReadType.

Module ReadOrientation.
Inductive t : Type := SAME | AWAY | TOWARD | NONE.

Definition eqb (a b : t) : bool :=
  match a, b with
  | SAME, SAME | AWAY, AWAY | TOWARD, TOWARD | NONE, NONE => true
  | _, _ => false
  end.
End ReadOrientation.

Module ReadStrandedness.
Inductive t : Type := SA | AS | S | A | U.

Definition eqb (a b : t) : bool :=
  match a, b with
  | SA, SA | AS, AS | S, S | A, A | U, U => true
  | _, _ => false
  end.
End ReadStrandedness.

Record LibraryFormat : Type := mkLibraryFormat {
  type : ReadType.t;
  orientation : ReadOrientation.t;
  strandedness : ReadStrandedness.t
}.

(** ** The fragment classifier: [hitType] *)

(** What a call does: it returns a value, or it ends the process
    ([std::exit]) with a status. *)
Inductive outcome (R : Type) : Type :=
| Returned (r : R)
| Exited (status : Z).

Arguments Returned {R} r.
Arguments Exited {R} status.

(** [LibraryFormat hitType(uint32_t end1Start, bool end1Fwd,
                           uint32_t end2Start, bool end2Fwd)].
    The positions are unsigned 32-bit values and are only compared.  The
    opposite-strand branch holds two [if]s that are tried one after the other;
    when neither fires control leaves the branch and reaches the error report
    and [std::exit(-1)]. *)
Definition hitType (end1Start : N) (end1Fwd : bool)
                   (end2Start : N) (end2Fwd : bool) : outcome LibraryFormat :=
  if negb (Bool.eqb end1Fwd end2Fwd) then
    if end1Fwd then
      if (end1Start <=? end2Start)%N
      then Returned (mkLibraryFormat ReadType.PAIRED_END ReadOrientation.TOWARD
                                     ReadStrandedness.SA)
      else Returned (mkLibraryFormat ReadType.PAIRED_END ReadOrientation.AWAY
                                     ReadStrandedness.SA)
    else if end2Fwd then
      if (end2Start <=? end1Start)%N
      then Returned (mkLibraryFormat ReadType.PAIRED_END ReadOrientation.TOWARD
                                     ReadStrandedness.AS)
      else Returned (mkLibraryFormat ReadType.PAIRED_END ReadOrientation.AWAY
                                     ReadStrandedness.AS)
    else Exited (-1)
  else
    if end1Fwd
    then Returned (mkLibraryFormat ReadType.PAIRED_END ReadOrientation.SAME
                                   ReadStrandedness.S)
    else Returned (mkLibraryFormat ReadType.PAIRED_END ReadOrientation.SAME
                                   ReadStrandedness.A).

(** [LibraryFormat hitType(uint32_t start, bool isForward)], the single-end
    overload: both arms of the [if] return, the statements after it are never
    run. *)
Definition hitTypeSingle (start : N) (isForward : bool) : LibraryFormat :=
  if isForward
  then mkLibraryFormat ReadType.SINGLE_END ReadOrientation.NONE ReadStrandedness.S
  else mkLibraryFormat ReadType.SINGLE_END ReadOrientation.NONE ReadStrandedness.A.

(** The six formats the paired overload returns. *)
Definition pairedFormats : list LibraryFormat :=
  [ mkLibraryFormat ReadType.PAIRED_END ReadOrientation.TOWARD ReadStrandedness.SA;
    mkLibraryFormat ReadType.PAIRED_END ReadOrientation.AWAY ReadStrandedness.SA;
    mkLibraryFormat ReadType.PAIRED_END ReadOrientation.TOWARD ReadStrandedness.AS;
    mkLibraryFormat ReadType.PAIRED_END ReadOrientation.AWAY ReadStrandedness.AS;
    mkLibraryFormat ReadType.PAIRED_END ReadOrientation.SAME ReadStrandedness.S;
    mkLibraryFormat ReadType.PAIRED_END ReadOrientation.SAME ReadStrandedness.A ].

(** ** [double] arithmetic *)

(** The operations [SalmonUtils.cpp] applies to [double] values.  [dexp] and
    [dlog] are [std::exp] and [std::log]; [of_N] is the conversion of an
    unsigned integer ([static_cast<double>], an integer operand of [/], the
    literals [0], [0.0], [1000000.0] and [1000000000.0]). *)
Class Double : Type := {
  double : Type;
  dadd : double -> double -> double;
  dsub : double -> double -> double;
  dmul : double -> double -> double;
  ddiv : double -> double -> double;
  dexp : double -> double;
  dlog : double -> double;
  deqb : double -> double -> bool;
  dltb : double -> double -> bool;
  of_N : N -> double
}.

(** [a > b]. *)
Definition dgtb {D : Double} (a b : double) : bool := dltb b a.

(** Modelled from the spec: [SailfishMath.hpp] is not among the sources; its
    four log-space constants are taken as parameters. *)
Class SailfishMath (D : Double) : Type := {
  LOG_0 : double;
  LOG_1 : double;
  LOG_ONEHALF : double;
  LOG_ORPHAN_PROB : double
}.

(** *** IEEE 754 binary64 *)

(** [std::exp] and [std::log] of the C library.  Their values are not fixed
    bit for bit by any standard; what is used of them are the exact special
    values of ISO C Annex F (F.10.3.1, F.10.3.7). *)
Record Libm : Type := {
  std_exp : float -> float;
  std_log : float -> float;
  exp_zero : std_exp 0 = 1%float;
  exp_neg_infinity : std_exp neg_infinity = 0%float;
  exp_infinity : std_exp infinity = infinity;
  log_one : std_log 1 = 0%float;
  log_zero : std_log 0 = neg_infinity
}.

(** Conversion of an unsigned integer of any width to [double]: round to
    nearest, ties to even. *)
Definition float_of_N (n : N) : float :=
  SF2Prim (binary_normalize prec emax (Z.of_N n) 0 false).

#[export] Instance IEEE (L : Libm) : Double := {|
  double := float;
  dadd := PrimFloat.add;
  dsub := PrimFloat.sub;
  dmul := PrimFloat.mul;
  ddiv := PrimFloat.div;
  dexp := std_exp L;
  dlog := std_log L;
  deqb := PrimFloat.eqb;
  dltb := PrimFloat.ltb;
  of_N := float_of_N
|}.

(** A library that knows the special values only (NaN elsewhere); it shows
    that [Libm] is inhabited and serves to evaluate the code on inputs that
    stay within these values. *)
Definition specialExp (x : float) : float :=
  if PrimFloat.eqb x 0 then 1%float
  else if PrimFloat.eqb x infinity then infinity
  else if PrimFloat.eqb x neg_infinity then 0%float
  else nan.

Definition specialLog (x : float) : float :=
  if PrimFloat.eqb x 1 then 0%float
  else if PrimFloat.eqb x 0 then neg_infinity
  else if PrimFloat.eqb x infinity then infinity
  else nan.

Definition specialLibm : Libm := {|
  std_exp := specialExp;
  std_log := specialLog;
  exp_zero := eq_refl;
  exp_neg_infinity := eq_refl;
  exp_infinity := eq_refl;
  log_one := eq_refl;
  log_zero := eq_refl
|}.

(** The constants with [LOG_0] set to [log0]; the other three are the
    logarithms of 1, 1/2 and 1/10. *)
Definition sailfishMath (L : Libm) (log0 : float) : SailfishMath (IEEE L) :=
  @Build_SailfishMath (IEEE L) log0 0%float
    (-0x1.62e42fefa39efp-1)%float (-0x1.26bb1bbb55516p+1)%float.

(** *** Exact arithmetic *)

(** Real numbers, with the operations that are not defined everywhere kept
    partial: [None] is the value of a division by 0 and of the logarithm of a
    number that is not positive, and of every operation on it.  A comparison
    with an undefined operand is false. *)
Definition lift2 (f : R -> R -> R) (a b : option R) : option R :=
  match a, b with
  | Some x, Some y => Some (f x y)
  | _, _ => None
  end.

Definition exactDiv (a b : option R) : option R :=
  match a, b with
  | Some x, Some y => if Req_dec_T y 0 then None else Some (x / y)%R
  | _, _ => None
  end.

Definition exactLog (a : option R) : option R :=
  match a with
  | Some x => if Rlt_dec 0 x then Some (ln x) else None
  | None => None
  end.

Definition exactEqb (a b : option R) : bool :=
  match a, b with
  | Some x, Some y => if Req_dec_T x y then true else false
  | _, _ => false
  end.

Definition exactLtb (a b : option R) : bool :=
  match a, b with
  | Some x, Some y => if Rlt_dec x y then true else false
  | _, _ => false
  end.

#[export] Instance Exact : Double := {|
  double := option R;
  dadd := lift2 Rplus;
  dsub := lift2 Rminus;
  dmul := lift2 Rmult;
  ddiv := exactDiv;
  dexp := option_map exp;
  dlog := exactLog;
  deqb := exactEqb;
  dltb := exactLtb;
  of_N := fun n => Some (IZR (Z.of_N n))
|}.

(** ** The compatibility scorer: [logAlignFormatProb] *)

Section Scorer.
Context {D : Double} {M : SailfishMath D}.

(** Every path of the [if]/[else if]/[else] chain returns; the warning and
    [return LOG_0] after the chain are never run. *)
Definition logAlignFormatProb (observed expected : LibraryFormat)
                              (incompatPrior : double) : double :=
  if ReadType.eqb (type expected) ReadType.PAIRED_END &&
     ReadType.eqb (type observed) ReadType.SINGLE_END then
    let logOrphanProb := LOG_ORPHAN_PROB in
    if ReadStrandedness.eqb (strandedness expected) ReadStrandedness.U ||
       ReadStrandedness.eqb (strandedness expected) ReadStrandedness.AS ||
       ReadStrandedness.eqb (strandedness expected) ReadStrandedness.SA
    then LOG_1
    else if ReadStrandedness.eqb (strandedness expected) (strandedness observed)
         then logOrphanProb else incompatPrior
  else if negb (ReadType.eqb (type observed) (type expected)) ||
          negb (ReadOrientation.eqb (orientation observed) (orientation expected))
  then incompatPrior
  else
    if ReadStrandedness.eqb (strandedness expected) ReadStrandedness.U
    then LOG_ONEHALF
    else if ReadStrandedness.eqb (strandedness expected) (strandedness observed)
         then LOG_1
         else incompatPrior.
End Scorer.

(** ** Abundance output: [writeAbundances] *)

Section Abundances.
Context {D : Double} {M : SailfishMath D}.

(** Modelled from the spec: [Transcript.hpp] is not among the sources.  The
    record holds what [writeAbundances] reads and writes of a transcript:
    [uniqueCount] and [totalCount] are what the accessors of the same names
    return, [mass] is [mass(false)], [cachedEffectiveLength] is
    [getCachedEffectiveLength()] (a logarithm); [uniqueCounts],
    [totalCounts] and [projectedCounts] are the fields the function
    assigns. *)
Record Transcript : Type := mkTranscript {
  RefName : string;
  RefLength : N;
  uniqueCount : N;
  totalCount : N;
  mass : double;
  cachedEffectiveLength : double;
  uniqueCounts : N;
  totalCounts : N;
  projectedCounts : double
}.

(** Modelled from the spec: the cluster type is not among the sources;
    [members] are indices into the transcript table. *)
Record Cluster : Type := mkCluster {
  logMass : double;
  numHits : N;
  members : list nat
}.

(** Modelled from the spec: what [writeAbundances] asks of [alnLib]
    ([AlignmentLibrary.hpp], [ReadExperiment.hpp] are not among the
    sources). *)
Record Library : Type := mkLibrary {
  transcripts : list Transcript;
  numMappedReads : N;
  clusters : list Cluster
}.

(** Modelled from the spec: [SalmonOpts] is not among the sources; the
    one option read here is the flag of the normalizer. *)
Record SalmonOpts : Type := mkSalmonOpts {
  noEffectiveLengthCorrection : bool
}.

(** [t.uniqueCounts = t.uniqueCount(); t.totalCounts = t.totalCount();] *)
Definition refreshCounts (t : Transcript) : Transcript :=
  mkTranscript (RefName t) (RefLength t) (uniqueCount t) (totalCount t)
               (mass t) (cachedEffectiveLength t)
               (uniqueCount t) (totalCount t) (projectedCounts t).

(** [t.projectedCounts = x;] *)
Definition setProjectedCounts (x : double) (t : Transcript) : Transcript :=
  mkTranscript (RefName t) (RefLength t) (uniqueCount t) (totalCount t)
               (mass t) (cachedEffectiveLength t)
               (uniqueCounts t) (totalCounts t) x.

(** [Transcript& t = refs[i]; ... t is assigned ...]: the entry at [i] is
    replaced by [f] of it.  An index past the end is undefined behaviour in
    C++; here it leaves the table as it is. *)
Fixpoint modify (f : Transcript -> Transcript) (i : nat)
                (refs : list Transcript) : list Transcript :=
  match refs, i with
  | [], _ => []
  | t :: rest, O => f t :: rest
  | t :: rest, Datatypes.S j => t :: modify f j rest
  end.

(** The first loop over the members (lines 133-138): the cached counts are
    refreshed and the members are counted. *)
Definition refreshMembers (membersOf : list nat) (refs : list Transcript)
  : list Transcript * nat :=
  fold_left (fun '(refs, clusterSize) transcriptID =>
               (modify refreshCounts transcriptID refs, Datatypes.S clusterSize))
            membersOf (refs, O).

(** One round of the second loop (lines 141-150).  A member id past the end
    of the table is undefined behaviour in C++; here the round does
    nothing. *)
Definition shareStep (logClusterMass logClusterCount : double)
                     (st : list Transcript * bool) (transcriptID : nat)
  : list Transcript * bool :=
  let '(refs, requiresProjection) := st in
  match nth_error refs transcriptID with
  | None => (refs, requiresProjection)
  | Some t =>
      let logTranscriptMass := mass t in
      if deqb logTranscriptMass LOG_0 then
        (modify (setProjectedCounts (of_N 0)) transcriptID refs,
         requiresProjection)
      else
        let logClusterFraction := dsub logTranscriptMass logClusterMass in
        let projected := dexp (dadd logClusterFraction logClusterCount) in
        (modify (setProjectedCounts projected) transcriptID refs,
         requiresProjection ||
           (dgtb projected (of_N (totalCounts t)) ||
            dltb projected (of_N (uniqueCounts t))))
  end.

(** The second loop (lines 140-151), [requiresProjection] starting at
    [false]. *)
Definition computeShares (logClusterMass logClusterCount : double)
                         (membersOf : list nat) (refs : list Transcript)
  : list Transcript * bool :=
  fold_left (shareStep logClusterMass logClusterCount) membersOf (refs, false).

(** What processing one cluster leaves behind: whether the warning went to
    [std::cerr], the flag, whether [projectToPolytope] was called, the table
    when the second loop ends ([shares]) and the table when the round of
    the cluster loop ends ([table]). *)
Record ClusterRun : Type := mkClusterRun {
  warned : bool;
  requiresProjection : bool;
  projected : bool;
  shares : list Transcript;
  table : list Transcript
}.

(** [cptr->projectToPolytope(refs)] is not among the sources: it is a
    parameter, a function from the cluster and the table to the table it
    leaves. *)
Variable projectToPolytope : Cluster -> list Transcript -> list Transcript.

(** The body of the loop over the clusters (lines 122-155). *)
Definition processCluster (c : Cluster) (refs : list Transcript) : ClusterRun :=
  let logClusterMass := logMass c in
  let logClusterCount := dlog (of_N (numHits c)) in
  let warning := deqb logClusterMass LOG_0 in
  let '(refs1, clusterSize) := refreshMembers (members c) refs in
  let '(refs2, requires) :=
    computeShares logClusterMass logClusterCount (members c) refs1 in
  let invoke := (1 <? clusterSize)%nat && requires in
  mkClusterRun warning requires invoke refs2
               (if invoke then projectToPolytope c refs2 else refs2).

(** The loop over the clusters (lines 119-157): the table it leaves and the
    ids of the clusters warned about, in order. *)
Definition processClusters (cs : list Cluster) (refs : list Transcript)
  : list Transcript * list nat :=
  let '(refs', _, warnings) :=
    fold_left (fun '(refs, clusterID, warnings) c =>
                 let run := processCluster c refs in
                 (table run, Datatypes.S clusterID,
                  if warned run then warnings ++ [clusterID] else warnings))
              cs (refs, O, []) in
  (refs', warnings).

(** Pass 1 (lines 160-167). *)
Definition tfracDenomOf (sopt : SalmonOpts) (numMapped : N)
                        (refs : list Transcript) : double :=
  fold_left (fun tfracDenom transcript =>
               let refLength :=
                 if noEffectiveLengthCorrection sopt
                 then of_N (RefLength transcript)
                 else dexp (cachedEffectiveLength transcript) in
               dadd tfracDenom
                    (ddiv (ddiv (projectedCounts transcript) (of_N numMapped))
                          refLength))
            refs (of_N 0).

(** One line of the output: [RefName], [RefLength], [tpm], [fpkm],
    [count]. *)
Record Row : Type := mkRow {
  rowName : string;
  rowLength : N;
  rowTPM : double;
  rowFPKM : double;
  rowNumReads : double
}.

(** The body of pass 2 (lines 171-187). *)
Definition rowOf (sopt : SalmonOpts) (numMapped : N) (tfracDenom : double)
                 (transcript : Transcript) : Row :=
  let logBillion := dlog (of_N 1000000000) in
  let million := of_N 1000000 in
  let logNumFragments := dlog (of_N numMapped) in
  let logLength :=
    if noEffectiveLengthCorrection sopt
    then dlog (of_N (RefLength transcript))
    else cachedEffectiveLength transcript in
  let fpkmFactor := dexp (dsub (dsub logBillion logLength) logNumFragments) in
  let count := projectedCounts transcript in
  let fpkm := if dgtb count (of_N 0) then dmul fpkmFactor count else of_N 0 in
  let npm := ddiv (projectedCounts transcript) (of_N numMapped) in
  let refLength := dexp logLength in
  let tfrac := ddiv (ddiv npm refLength) tfracDenom in
  let tpm := dmul tfrac million in
  mkRow (RefName transcript) (RefLength transcript) tpm fpkm count.

(** The two passes of the normalizer (lines 159-188). *)
Definition normalize (sopt : SalmonOpts) (numMapped : N)
                     (refs : list Transcript) : list Row :=
  let tfracDenom := tfracDenomOf sopt numMapped refs in
  map (rowOf sopt numMapped tfracDenom) refs.

(** What a call of [writeAbundances] produces: the warnings on [std::cerr],
    and in the file the caller's header comments, the column header and
    the rows. *)
Record Written : Type := mkWritten {
  cerr : list nat;
  header : string;
  columns : string;
  rows : list Row
}.

(** The column header of line 110, tabs and final newline included. *)
Definition columnHeader : string :=
  "# Name	Length	TPM	FPKM	NumReads
".

Definition writeAbundances (sopt : SalmonOpts) (alnLib : Library)
                           (headerComments : string) : Written :=
  let '(refs, warnings) :=
    processClusters (clusters alnLib) (transcripts alnLib) in
  mkWritten warnings headerComments columnHeader
            (normalize sopt (numMappedReads alnLib) refs).

(** The quantities the statements below speak of. *)

(** The raw share of a transcript in a cluster:
    [exp((mass - logClusterMass) + ln numHits)]. *)
Definition rawShare (c : Cluster) (t : Transcript) : double :=
  dexp (dadd (dsub (mass t) (logMass c)) (dlog (of_N (numHits c)))).

(** [x] lies strictly outside [[uniqueCount t, totalCount t]], by the
    comparisons of line 148. *)
Definition outside (x : double) (t : Transcript) : bool :=
  dgtb x (of_N (totalCount t)) || dltb x (of_N (uniqueCount t)).

(** The effective length pass 2 divides by, and its logarithm. *)
Definition logEffectiveLength (sopt : SalmonOpts) (t : Transcript) : double :=
  if noEffectiveLengthCorrection sopt
  then dlog (of_N (RefLength t)) else cachedEffectiveLength t.

Definition effectiveLength (sopt : SalmonOpts) (t : Transcript) : double :=
  dexp (logEffectiveLength sopt t).

(** [j] is one of [ids]. *)
Definition memb (j : nat) (ids : list nat) : bool := existsb (Nat.eqb j) ids.

(** What the second loop assigns to a transcript, and what the transcript
    adds to the flag. *)
Definition assigned (logClusterMass logClusterCount : double)
                    (t : Transcript) : double :=
  if deqb (mass t) LOG_0 then of_N 0
  else dexp (dadd (dsub (mass t) logClusterMass) logClusterCount).

Definition flags (logClusterMass logClusterCount : double)
                 (t : Transcript) : bool :=
  if deqb (mass t) LOG_0 then false
  else dgtb (assigned logClusterMass logClusterCount t) (of_N (totalCounts t)) ||
       dltb (assigned logClusterMass logClusterCount t) (of_N (uniqueCounts t)).

Definition flagsAt (logClusterMass logClusterCount : double)
                   (refs : list Transcript) (id : nat) : bool :=
  match nth_error refs id with
  | Some t => flags logClusterMass logClusterCount t
  | None => false
  end.

(** Modelled from the spec: [projectToPolytope] is not among the sources.
    This is what the spec promises of the table a call leaves ("output
    satisfies all bounds exactly", "only projectedCounts is mutated"): each
    member's entry is the entry before with a new [projectedCounts], and the
    new value is not outside the member's interval. *)
Definition keepsBounds (c : Cluster) (before after : list Transcript) : Prop :=
  forall id t, In id (members c) -> nth_error before id = Some t ->
    exists x, nth_error after id = Some (setProjectedCounts x t) /\
              outside x t = false.
End Abundances.

Arguments Transcript {D}.
Arguments Cluster {D}.
Arguments Library {D}.
Arguments Row {D}.
Arguments ClusterRun {D}.
Arguments Written {D}.

(** ** IEEE zeros *)

(** [x] is [+0] or [-0]. *)
Definition isZero (x : float) : Prop := exists s, Prim2SF x = S754_zero s.

(** [x] is neither a zero nor NaN. *)
Definition nonZero (x : float) : bool :=
  PrimFloat.eqb x x && negb (PrimFloat.eqb x 0).

(** ** Sums in exact arithmetic *)

Definition sumR (l : list R) : R := fold_right Rplus 0%R l.

(** The sum of the TPM column. *)
Definition sumTPM (rows : list (@Row Exact)) : option R :=
  fold_right (fun row acc => lift2 Rplus (rowTPM row) acc) (Some 0%R) rows.

(** ** Inputs the statements are evaluated on *)

Section Inputs.
Variable L : Libm.

(** A transcript of length 100 with the given counts and mass, whose cached
    fields are still 0. *)
Definition ieeeTranscript (name : string) (unique total : N) (m : float)
  : @Transcript (IEEE L) :=
  @mkTranscript (IEEE L) name 100 unique total m 0%float 0 0 0%float.

(** A cluster of log-mass 0 with one hit, whose only member has mass [log0]
    and holds the one read. *)
Definition loneCluster : @Cluster (IEEE L) := @mkCluster (IEEE L) 0%float 1 [0%nat].

Definition loneZeroMass (log0 : float) : list (@Transcript (IEEE L)) :=
  [ieeeTranscript "t0" 1 1 log0].

(** A cluster of log-mass [log0] with one hit and one member of mass 0. *)
Definition massless1 (log0 : float) : @Cluster (IEEE L) :=
  @mkCluster (IEEE L) log0 1 [0%nat].

Definition holder1 : list (@Transcript (IEEE L)) := [ieeeTranscript "t0" 1 1 0%float].

(** A cluster with one hit and two members: the first holds the only read,
    the second none. *)
Definition pairCluster (m : float) : @Cluster (IEEE L) :=
  @mkCluster (IEEE L) m 1 [0%nat; 1%nat].

Definition pairTable (m0 m1 : float) : list (@Transcript (IEEE L)) :=
  [ieeeTranscript "t0" 1 1 m0; ieeeTranscript "t1" 0 0 m1].

(** A projection that leaves the table as it is. *)
Definition identityProjection
  : @Cluster (IEEE L) -> list (@Transcript (IEEE L)) -> list (@Transcript (IEEE L)) :=
  fun _ refs => refs.

(** A projection that sets every count to the lower end of its interval. *)
Definition lowerBoundProjection
  : @Cluster (IEEE L) -> list (@Transcript (IEEE L)) -> list (@Transcript (IEEE L)) :=
  fun _ refs =>
    map (fun t : @Transcript (IEEE L) =>
           @setProjectedCounts (IEEE L) (float_of_N (uniqueCount t)) t) refs.

(** A table of one transcript of length 1 that no read was assigned to. *)
Definition idleTable : list (@Transcript (IEEE L)) :=
  [@mkTranscript (IEEE L) "t0" 1 0 0 0%float 0%float 0 0 0%float].
End Inputs.

Arguments identityProjection L : clear implicits.
Arguments lowerBoundProjection L : clear implicits.

(** Two transcripts in exact arithmetic: lengths 2 and 4, counts 1 and 3. *)
Definition exactTable : list (@Transcript Exact) :=
  [@mkTranscript Exact "t0" 2 1 1 (Some 0%R) (Some 0%R) 1 1 (Some 1%R);
   @mkTranscript Exact "t1" 4 3 3 (Some 0%R) (Some 0%R) 3 3 (Some 3%R)].

(** Rewriting with the special values of a [Libm], and evaluating. *)
Ltac libm L :=
  let H := fresh "Hlibm" in
  pose proof (conj (exp_zero L) (conj (exp_neg_infinity L) (conj (exp_infinity L)
             (conj (log_one L) (log_zero L))))) as H;
  unfold neg_infinity, infinity in H;
  destruct H as (?He0 & ?Heni & ?Hei & ?Hl1 & ?Hl0);
  repeat (cbn; first [ rewrite He0 | rewrite Heni | rewrite Hei
                     | rewrite Hl1 | rewrite Hl0 ]);
  cbn.

(** ** SAM headers: [headersAreConsistent] *)

Module Headers.

(** [SAM_hdr] is the header type of the SAM/BAM reader.  Of a header the
    two functions read [nref], the number of targets, and of the target at
    index [i] its [name] and [len]; [nref] counts the entries of [ref]. *)
Record SAM_ref : Type := mkRef {
  name : string;
  len : N
}.

Record SAM_hdr : Type := mkHdr {
  nref : nat;
  ref : list SAM_ref
}.

(** [ref] holds [nref] targets, as the reader builds it. *)
Definition wellFormed (h : SAM_hdr) : Prop := nref h = List.length (ref h).

(** The [while (consistent and i < n)] loop of lines 23-29.  Every round
    adds one to [i], so [fuel] rounds are enough when [n <= fuel + i].
    [strcmp(..) == 0] is equality of the names.  Reading [ref[i]] past the
    end of an array is undefined behaviour in C++; here it ends the loop with
    [false]. *)
Fixpoint headerLoop (h1 h2 : SAM_hdr) (n fuel i : nat) (consistent : bool) : bool :=
  match fuel with
  | O => consistent
  | Datatypes.S fuel' =>
      if consistent && (i <? n)%nat then
        match nth_error (ref h1) i, nth_error (ref h2) i with
        | Some r1, Some r2 =>
            let l1 := len r1 in
            let l2 := len r2 in
            headerLoop h1 h2 n fuel' (Datatypes.S i)
                       ((l1 =? l2)%N && String.eqb (name r1) (name r2))
        | _, _ => false
        end
      else consistent
  end.

(** [bool headersAreConsistent(SAM_hdr* h1, SAM_hdr* h2)] (lines 14-32). *)
Definition headersAreConsistent (h1 h2 : SAM_hdr) : bool :=
  let consistent := true in
  let consistent := if negb (nref h1 =? nref h2)%nat then false else consistent in
  let n := nref h1 in
  headerLoop h1 h2 n n O consistent.

(** The loop of lines 42-47: every header after the first is compared with
    the first, and the first failure ends the loop. *)
Fixpoint compareWithFirst (first : SAM_hdr) (others : list SAM_hdr) : bool :=
  match others with
  | [] => true
  | h :: others' =>
      if negb (headersAreConsistent first h) then false
      else compareWithFirst first others'
  end.

(** [bool headersAreConsistent(std::vector<SAM_hdr*>&& headers)] (lines
    34-49).  On an empty vector [++it] steps past [end()], which is
    undefined behaviour: there is no result ([None]). *)
Definition headersAreConsistentAll (headers : list SAM_hdr) : option bool :=
  match headers with
  | [] => None
  | [_] => Some true
  | first :: others => Some (compareWithFirst first others)
  end.

End Headers.

(** ** [operator<<] for [OrphanStatus] *)

(** The three cases of the [switch] of lines 53-63. *)
Inductive OrphanStatus : Type := LeftOrphan | RightOrphan | Paired.

(** [std::ostream& operator<<(std::ostream& os, OrphanStatus s)]: the stream
    is the text written so far. *)
Definition printOrphanStatus (os : string) (s : OrphanStatus) : string :=
  match s with
  | LeftOrphan => os ++ "left orphan"
  | RightOrphan => os ++ "right orphan"
  | Paired => os ++ "paired"
  end.

(** ** Quantities the further statements speak of *)



Section ShareStage.
Context {D : Double} {M : SailfishMath D}.

(** The entry the two member loops leave for a member that was [t]: the
    cached counts refreshed, and its share as [projectedCounts]. *)
Definition shareOf (c : Cluster) (t : Transcript) : Transcript :=
  setProjectedCounts (if deqb (mass t) LOG_0 then of_N 0 else rawShare c t)
                     (refreshCounts t).

(** The positions, counted from [from], of the clusters whose log-mass
    equals [LOG_0]. *)
Fixpoint zeroMassPositions (cs : list Cluster) (from : nat) : list nat :=
  match cs with
  | [] => []
  | c :: cs' =>
      (if deqb (logMass c) LOG_0 then [from] else []) ++
      zeroMassPositions cs' (Datatypes.S from)
  end.
End ShareStage.

Section Labels.
Context {D : Double}.

(** The name and length columns of a table and of the rows written. *)
Definition labels (refs : list Transcript) : list (string * N) :=
  map (fun t => (RefName t, RefLength t)) refs.

Definition rowLabels (rs : list Row) : list (string * N) :=
  map (fun r => (rowName r, rowLength r)) rs.
End Labels.

(** * Properties *)

Unset Implicit Arguments.

Lemma ReadType_eqb_eq (a b : ReadType.t) : ReadType.eqb a b = true <-> a = b.
Proof. destruct a, b; simpl; split; congruence. Qed.

Lemma ReadOrientation_eqb_eq (a b : ReadOrientation.t) :
  ReadOrientation.eqb a b = true <-> a = b.
Proof. destruct a, b; simpl; split; congruence. Qed.

Lemma ReadStrandedness_eqb_eq (a b : ReadStrandedness.t) :
  ReadStrandedness.eqb a b = true <-> a = b.
Proof. destruct a, b; simpl; split; congruence. Qed.

(** C1. [logAlignFormatProb observed expected incompatPrior] follows the
    decision table: (1) expected PAIRED_END and observed SINGLE_END: [LOG_1]
    when the expected strandedness is U, AS or SA, otherwise
    [LOG_ORPHAN_PROB] when the two strandedness values are equal and
    [incompatPrior] when they differ; (2) otherwise, when the types or the
    orientations differ: [incompatPrior]; (3) otherwise [LOG_ONEHALF] when
    the expected strandedness is U, [LOG_1] when the strandedness values are
    equal, [incompatPrior] when they differ. *)
Theorem logAlignFormatProb_decision_table
    (D : Double) (M : SailfishMath D)
    (observed expected : LibraryFormat) (incompatPrior : double) :
  let r := logAlignFormatProb observed expected incompatPrior in
  let orphan := type expected = ReadType.PAIRED_END /\ type observed = ReadType.SINGLE_END in
  let mismatch := type observed <> type expected \/
                  orientation observed <> orientation expected in
  (orphan ->
     (In (strandedness expected) [ReadStrandedness.U; ReadStrandedness.AS; ReadStrandedness.SA] -> r = LOG_1) /\
     (~ In (strandedness expected) [ReadStrandedness.U; ReadStrandedness.AS; ReadStrandedness.SA] ->
        (strandedness expected = strandedness observed -> r = LOG_ORPHAN_PROB) /\
        (strandedness expected <> strandedness observed -> r = incompatPrior))) /\
  (~ orphan -> mismatch -> r = incompatPrior) /\
  (~ orphan -> ~ mismatch ->
     (strandedness expected = ReadStrandedness.U -> r = LOG_ONEHALF) /\
     (strandedness expected <> ReadStrandedness.U ->
        (strandedness expected = strandedness observed -> r = LOG_1) /\
        (strandedness expected <> strandedness observed -> r = incompatPrior))).
Proof.
  destruct observed as [ot oo os], expected as [et eo es].
  unfold logAlignFormatProb; cbn [type orientation strandedness].
  assert (HU : In es [ReadStrandedness.U; ReadStrandedness.AS; ReadStrandedness.SA] <->
               ReadStrandedness.eqb es ReadStrandedness.U || ReadStrandedness.eqb es ReadStrandedness.AS ||
               ReadStrandedness.eqb es ReadStrandedness.SA = true).
  { destruct es; simpl; intuition discriminate. }
  assert (HO : et = ReadType.PAIRED_END /\ ot = ReadType.SINGLE_END <->
               ReadType.eqb et ReadType.PAIRED_END && ReadType.eqb ot ReadType.SINGLE_END = true).
  { rewrite andb_true_iff, !ReadType_eqb_eq; tauto. }
  assert (HM : ot <> et \/ oo <> eo <->
               negb (ReadType.eqb ot et) || negb (ReadOrientation.eqb oo eo) = true).
  { rewrite orb_true_iff, !negb_true_iff, <- !not_true_iff_false,
            ReadType_eqb_eq, ReadOrientation_eqb_eq; tauto. }
  pose proof (ReadStrandedness_eqb_eq es os) as HS.
  pose proof (ReadStrandedness_eqb_eq es ReadStrandedness.U) as HSU.
  destruct (ReadType.eqb et ReadType.PAIRED_END && ReadType.eqb ot ReadType.SINGLE_END);
    destruct (negb (ReadType.eqb ot et) || negb (ReadOrientation.eqb oo eo));
    destruct (ReadStrandedness.eqb es ReadStrandedness.U || ReadStrandedness.eqb es ReadStrandedness.AS ||
              ReadStrandedness.eqb es ReadStrandedness.SA);
    destruct (ReadStrandedness.eqb es os);
    destruct (ReadStrandedness.eqb es ReadStrandedness.U);
    intuition (try reflexivity; try discriminate).
Qed.

(** The two scenarios of the spec: an orphan against (PAIRED_END, TOWARD, AS)
    scores [LOG_1], an orphan of matching strandedness against
    (PAIRED_END, TOWARD, S) scores [LOG_ORPHAN_PROB]; [incompatPrior] is
    -50. *)
Example orphan_of_AS_library :
  @logAlignFormatProb (IEEE specialLibm) (sailfishMath specialLibm neg_infinity)
    (mkLibraryFormat ReadType.SINGLE_END ReadOrientation.NONE ReadStrandedness.A)
    (mkLibraryFormat ReadType.PAIRED_END ReadOrientation.TOWARD ReadStrandedness.AS)
    (-50)%float = 0%float.
Proof. reflexivity. Qed.

Example orphan_of_S_library :
  @logAlignFormatProb (IEEE specialLibm) (sailfishMath specialLibm neg_infinity)
    (mkLibraryFormat ReadType.SINGLE_END ReadOrientation.NONE ReadStrandedness.S)
    (mkLibraryFormat ReadType.PAIRED_END ReadOrientation.TOWARD ReadStrandedness.S)
    (-50)%float = (-0x1.26bb1bbb55516p+1)%float.
Proof. reflexivity. Qed.

(** ** The classifier *)

Example hitType_inward_pair :
  hitType 100 true 250 false =
  Returned (mkLibraryFormat ReadType.PAIRED_END ReadOrientation.TOWARD
                            ReadStrandedness.SA).
Proof. reflexivity. Qed.

Example hitType_outward_pair :
  hitType 250 true 100 false =
  Returned (mkLibraryFormat ReadType.PAIRED_END ReadOrientation.AWAY
                            ReadStrandedness.SA).
Proof. reflexivity. Qed.

(** C5. Ends on opposite strands: with end 1 forward the result is
    (PAIRED_END, TOWARD, SA) when [end1Start <= end2Start] and
    (PAIRED_END, AWAY, SA) when [end1Start > end2Start]; with end 2 forward it
    is (PAIRED_END, TOWARD, AS) when [end2Start <= end1Start] and
    (PAIRED_END, AWAY, AS) when [end2Start > end1Start]. *)
Theorem hitType_opposite_strands
    (end1Start end2Start : N) (end1Fwd end2Fwd : bool) :
  end1Fwd <> end2Fwd ->
  (end1Fwd = true ->
     ((end1Start <= end2Start)%N ->
        hitType end1Start end1Fwd end2Start end2Fwd =
        Returned (mkLibraryFormat ReadType.PAIRED_END ReadOrientation.TOWARD
                                  ReadStrandedness.SA)) /\
     ((end1Start > end2Start)%N ->
        hitType end1Start end1Fwd end2Start end2Fwd =
        Returned (mkLibraryFormat ReadType.PAIRED_END ReadOrientation.AWAY
                                  ReadStrandedness.SA))) /\
  (end2Fwd = true ->
     ((end2Start <= end1Start)%N ->
        hitType end1Start end1Fwd end2Start end2Fwd =
        Returned (mkLibraryFormat ReadType.PAIRED_END ReadOrientation.TOWARD
                                  ReadStrandedness.AS)) /\
     ((end2Start > end1Start)%N ->
        hitType end1Start end1Fwd end2Start end2Fwd =
        Returned (mkLibraryFormat ReadType.PAIRED_END ReadOrientation.AWAY
                                  ReadStrandedness.AS))).
Proof.
  intros Hopp. unfold hitType.
  destruct end1Fwd, end2Fwd; try congruence; simpl.
  - split; [intros _ | discriminate].
    split; intros Hcmp.
    + apply N.leb_le in Hcmp. now rewrite Hcmp.
    + apply N.gt_lt, N.leb_gt in Hcmp. now rewrite Hcmp.
  - split; [discriminate | intros _].
    split; intros Hcmp.
    + apply N.leb_le in Hcmp. now rewrite Hcmp.
    + apply N.gt_lt, N.leb_gt in Hcmp. now rewrite Hcmp.
Qed.

(** The statement of C5 at end 1 reverse at 9, end 2 forward at 5. *)
Lemma hitType_opposite_strands_witness :
  hitType 9 false 5 true =
  Returned (mkLibraryFormat ReadType.PAIRED_END ReadOrientation.TOWARD
                            ReadStrandedness.AS).
Proof.
  refine (proj1 (proj2 (hitType_opposite_strands 9 5 false true _) eq_refl) _).
  - discriminate.
  - lia.
Defined.

(** C6. Ends on the same strand give (PAIRED_END, SAME, S) when both are
    forward and (PAIRED_END, SAME, A) when both are reverse, whatever the
    positions; a single end gives (SINGLE_END, NONE, S) when forward and
    (SINGLE_END, NONE, A) otherwise; a result of either overload whose type
    is SINGLE_END has orientation NONE. *)
Theorem hitType_same_strand_and_single
    (end1Start end2Start start : N) (end1Fwd end2Fwd isForward : bool) :
  (end1Fwd = true -> end2Fwd = true ->
     hitType end1Start end1Fwd end2Start end2Fwd =
     Returned (mkLibraryFormat ReadType.PAIRED_END ReadOrientation.SAME
                               ReadStrandedness.S)) /\
  (end1Fwd = false -> end2Fwd = false ->
     hitType end1Start end1Fwd end2Start end2Fwd =
     Returned (mkLibraryFormat ReadType.PAIRED_END ReadOrientation.SAME
                               ReadStrandedness.A)) /\
  (isForward = true ->
     hitTypeSingle start isForward =
     mkLibraryFormat ReadType.SINGLE_END ReadOrientation.NONE ReadStrandedness.S) /\
  (isForward = false ->
     hitTypeSingle start isForward =
     mkLibraryFormat ReadType.SINGLE_END ReadOrientation.NONE ReadStrandedness.A) /\
  (type (hitTypeSingle start isForward) = ReadType.SINGLE_END /\
   orientation (hitTypeSingle start isForward) = ReadOrientation.NONE) /\
  (forall lf, hitType end1Start end1Fwd end2Start end2Fwd = Returned lf ->
              type lf = ReadType.SINGLE_END ->
              orientation lf = ReadOrientation.NONE).
Proof.
  repeat split; try (intros -> ; try intros ->; reflexivity);
    try (destruct isForward; reflexivity).
  intros lf Hret Hty. unfold hitType in Hret.
  destruct end1Fwd, end2Fwd; simpl in Hret;
    repeat match type of Hret with
           | context [if ?b then _ else _] => destruct b
           end;
    inversion Hret; subst lf; discriminate Hty.
Qed.

(** The statement of C6 at two reverse ends and at a forward single end. *)
Lemma hitType_same_strand_and_single_witness :
  hitType 40 false 7 false =
  Returned (mkLibraryFormat ReadType.PAIRED_END ReadOrientation.SAME
                            ReadStrandedness.A) /\
  hitTypeSingle 3 true =
  mkLibraryFormat ReadType.SINGLE_END ReadOrientation.NONE ReadStrandedness.S.
Proof.
  pose proof (hitType_same_strand_and_single 40 7 3 false false true)
    as (_ & Hrev & Hfwd & _).
  split; [exact (Hrev eq_refl eq_refl) | exact (Hfwd eq_refl)].
Defined.

(** C7. The error exit of the paired overload is never taken: for all
    positions and strand flags the call returns, and what it returns is one
    of the six paired formats. *)
Theorem hitType_always_returns
    (end1Start end2Start : N) (end1Fwd end2Fwd : bool) :
  exists lf, hitType end1Start end1Fwd end2Start end2Fwd = Returned lf /\
             In lf pairedFormats.
Proof.
  unfold hitType, pairedFormats.
  destruct end1Fwd, end2Fwd; simpl;
    try destruct (end1Start <=? end2Start)%N;
    try destruct (end2Start <=? end1Start)%N;
    eexists; (split; [reflexivity | simpl; tauto]).
Qed.

(** C10. The single-end overload ignores the position: two calls with the
    same strand flag return the same format. *)
Theorem hitTypeSingle_position_independent
    (start1 start2 : N) (isForward : bool) :
  hitTypeSingle start1 isForward = hitTypeSingle start2 isForward.
Proof.
  unfold hitTypeSingle.
  destruct isForward; reflexivity.
Qed.

(** ** The cluster loop *)

Section ClusterLoop.
Context {D : Double} {M : SailfishMath D}.

Lemma memb_In (j : nat) (ids : list nat) : memb j ids = true <-> In j ids.
Proof.
  unfold memb. rewrite existsb_exists. split.
  - intros (x & Hin & Heq). apply Nat.eqb_eq in Heq. now subst.
  - intros Hin. exists j. split; [assumption | apply Nat.eqb_refl].
Qed.

Lemma nth_error_modify (f : Transcript -> Transcript) (i : nat)
      (refs : list Transcript) (j : nat) :
  nth_error (modify f i refs) j =
  if Nat.eqb i j then option_map f (nth_error refs j) else nth_error refs j.
Proof.
  revert i j. induction refs as [|t rest IH]; intros i j.
  - destruct i, j; simpl; try reflexivity; now destruct (Nat.eqb i j).
  - destruct i, j; simpl; try reflexivity. apply IH.
Qed.

(** *** The first loop *)

Lemma refreshMembers_fold (ids : list nat) (refs : list Transcript) (n : nat) :
  fold_left (fun '(refs, clusterSize) transcriptID =>
               (modify refreshCounts transcriptID refs, Datatypes.S clusterSize))
            ids (refs, n) =
  (fold_left (fun refs transcriptID => modify refreshCounts transcriptID refs)
             ids refs,
   (List.length ids + n)%nat).
Proof.
  revert refs n. induction ids as [|id ids IH]; intros refs n; simpl.
  - reflexivity.
  - rewrite IH. f_equal. lia.
Qed.

Lemma refreshMembers_size (ids : list nat) (refs : list Transcript) :
  snd (refreshMembers ids refs) = List.length ids.
Proof. unfold refreshMembers. rewrite refreshMembers_fold. simpl. lia. Qed.

Lemma refreshMembers_nth (ids : list nat) (refs : list Transcript) (j : nat) :
  nth_error (fst (refreshMembers ids refs)) j =
  if memb j ids then option_map refreshCounts (nth_error refs j)
  else nth_error refs j.
Proof.
  unfold refreshMembers. rewrite refreshMembers_fold. simpl fst.
  revert refs. induction ids as [|id ids IH]; intros refs; simpl.
  - reflexivity.
  - rewrite IH, nth_error_modify. rewrite (Nat.eqb_sym j id).
    destruct (Nat.eqb id j), (memb j ids); simpl; try reflexivity.
    now destruct (nth_error refs j).
Qed.

(** *** The second loop *)

Variables logClusterMass logClusterCount : double.

Local Abbreviation assigned := (assigned logClusterMass logClusterCount).
Local Abbreviation flags := (flags logClusterMass logClusterCount).
Local Abbreviation flagsAt := (flagsAt logClusterMass logClusterCount).

Lemma shareStep_eq (refs : list Transcript) (flag : bool) (id : nat) :
  shareStep logClusterMass logClusterCount (refs, flag) id =
  (modify (fun t => setProjectedCounts (assigned t) t) id refs,
   flag || flagsAt refs id).
Proof.
  unfold shareStep, flagsAt, flags, assigned.
  destruct (nth_error refs id) as [t|] eqn:Hnth.
  - assert (Hmod : forall x, modify (setProjectedCounts x) id refs =
                             modify (fun _ => setProjectedCounts x t) id refs).
    { intros x. clear - Hnth. revert id Hnth.
      induction refs as [|u rest IH]; intros [|id] Hnth; simpl in *;
        try discriminate; try congruence.
      now rewrite (IH _ Hnth). }
    assert (Hmod' : modify (fun t => setProjectedCounts (assigned t) t) id refs =
                    modify (fun _ => setProjectedCounts (assigned t) t) id refs).
    { clear - Hnth. revert id Hnth.
      induction refs as [|u rest IH]; intros [|id] Hnth; simpl in *;
        try discriminate; try congruence.
      now rewrite (IH _ Hnth). }
    unfold assigned in Hmod'. rewrite Hmod'.
    destruct (deqb (mass t) LOG_0).
    + now rewrite Hmod, orb_false_r.
    + now rewrite Hmod.
  - rewrite orb_false_r. f_equal.
    clear - Hnth. revert id Hnth.
    induction refs as [|u rest IH]; intros [|id] Hnth; simpl in *;
      try discriminate; try reflexivity.
    now rewrite <- (IH _ Hnth).
Qed.

Lemma flagsAt_modify (refs : list Transcript) (i id : nat) :
  flagsAt (modify (fun t => setProjectedCounts (assigned t) t) i refs) id =
  flagsAt refs id.
Proof.
  unfold flagsAt. rewrite nth_error_modify.
  destruct (Nat.eqb i id); [|reflexivity].
  now destruct (nth_error refs id).
Qed.

Lemma existsb_flagsAt_modify (refs : list Transcript) (i : nat) (ids : list nat) :
  existsb (flagsAt (modify (fun t => setProjectedCounts (assigned t) t) i refs)) ids =
  existsb (flagsAt refs) ids.
Proof.
  induction ids as [|id ids IH]; simpl; [reflexivity|].
  now rewrite flagsAt_modify, IH.
Qed.

Lemma computeShares_fold (ids : list nat) (refs : list Transcript) (flag : bool) :
  fold_left (shareStep logClusterMass logClusterCount) ids (refs, flag) =
  (fold_left (fun refs id => modify (fun t => setProjectedCounts (assigned t) t) id refs)
             ids refs,
   flag || existsb (flagsAt refs) ids).
Proof.
  revert refs flag. induction ids as [|id ids IH]; intros refs flag;
    cbn [fold_left existsb].
  - now rewrite orb_false_r.
  - rewrite shareStep_eq, IH, existsb_flagsAt_modify. now rewrite orb_assoc.
Qed.

Lemma computeShares_nth (ids : list nat) (refs : list Transcript) (j : nat) :
  nth_error (fst (computeShares logClusterMass logClusterCount ids refs)) j =
  if memb j ids
  then option_map (fun t => setProjectedCounts (assigned t) t) (nth_error refs j)
  else nth_error refs j.
Proof.
  unfold computeShares. rewrite computeShares_fold. simpl fst.
  revert refs. induction ids as [|id ids IH]; intros refs; simpl.
  - reflexivity.
  - rewrite IH, nth_error_modify. rewrite (Nat.eqb_sym j id).
    destruct (Nat.eqb id j), (memb j ids); simpl; try reflexivity.
    now destruct (nth_error refs j).
Qed.

Lemma computeShares_flag (ids : list nat) (refs : list Transcript) :
  snd (computeShares logClusterMass logClusterCount ids refs) =
  existsb (flagsAt refs) ids.
Proof. unfold computeShares. now rewrite computeShares_fold. Qed.
End ClusterLoop.

Section ClusterRuns.
Context {D : Double} {M : SailfishMath D}.
Variable projectToPolytope : Cluster -> list Transcript -> list Transcript.

Local Abbreviation run := (processCluster projectToPolytope).

(** One round of the cluster loop, with the two member loops named. *)
Lemma processCluster_eq (c : Cluster) (refs : list Transcript) :
  let refs1 := fst (refreshMembers (members c) refs) in
  let out := computeShares (logMass c) (dlog (of_N (numHits c))) (members c) refs1 in
  let invoke := (1 <? List.length (members c))%nat && snd out in
  run c refs =
  mkClusterRun (deqb (logMass c) LOG_0) (snd out) invoke (fst out)
               (if invoke then projectToPolytope c (fst out) else fst out).
Proof.
  cbv zeta. unfold processCluster.
  pose proof (refreshMembers_size (members c) refs) as Hsize.
  destruct (refreshMembers (members c) refs) as [refs1 clusterSize].
  simpl in Hsize. subst clusterSize. simpl fst.
  now destruct (computeShares (logMass c) (dlog (of_N (numHits c))) (members c) refs1).
Qed.

(** A member's entry when the second loop ends. *)
Lemma shares_member (c : Cluster) (refs : list Transcript) (id : nat) (t : Transcript) :
  In id (members c) -> nth_error refs id = Some t ->
  nth_error (shares (run c refs)) id =
  Some (setProjectedCounts
          (if deqb (mass t) LOG_0 then of_N 0 else rawShare c t)
          (refreshCounts t)).
Proof.
  intros Hin Hnth. rewrite processCluster_eq. cbn [shares].
  apply memb_In in Hin.
  rewrite computeShares_nth, Hin, refreshMembers_nth, Hin, Hnth.
  reflexivity.
Qed.

(** What a member adds to the flag, in terms of the table the round starts
    from. *)
Lemma flagsAt_refreshed (c : Cluster) (refs : list Transcript) (id : nat) :
  In id (members c) ->
  flagsAt (logMass c) (dlog (of_N (numHits c)))
          (fst (refreshMembers (members c) refs)) id =
  match nth_error refs id with
  | Some t => negb (deqb (mass t) LOG_0) && outside (rawShare c t) t
  | None => false
  end.
Proof.
  intros Hin. apply memb_In in Hin.
  unfold flagsAt. rewrite refreshMembers_nth, Hin.
  destruct (nth_error refs id) as [t|]; [|reflexivity].
  cbn [option_map]. unfold flags, assigned, outside, rawShare.
  cbn [mass refreshCounts totalCounts uniqueCounts].
  now destruct (deqb (mass t) LOG_0).
Qed.

Lemma requiresProjection_existsb (c : Cluster) (refs : list Transcript) :
  requiresProjection (run c refs) =
  existsb (fun id => match nth_error refs id with
                     | Some t => negb (deqb (mass t) LOG_0) &&
                                 outside (rawShare c t) t
                     | None => false
                     end) (members c).
Proof.
  rewrite processCluster_eq. cbn [requiresProjection].
  rewrite computeShares_flag.
  assert (Hext : forall ids, incl ids (members c) ->
            existsb (flagsAt (logMass c) (dlog (of_N (numHits c)))
                             (fst (refreshMembers (members c) refs))) ids =
            existsb (fun id => match nth_error refs id with
                               | Some t => negb (deqb (mass t) LOG_0) &&
                                           outside (rawShare c t) t
                               | None => false
                               end) ids).
  { induction ids as [|id ids IH]; intros Hincl; simpl; [reflexivity|].
    rewrite flagsAt_refreshed by (apply Hincl; now left).
    rewrite IH; [reflexivity|].
    intros x Hx. apply Hincl. now right. }
  apply Hext, incl_refl.
Qed.

Lemma projected_eq (c : Cluster) (refs : list Transcript) :
  projected (run c refs) =
  (1 <? List.length (members c))%nat && requiresProjection (run c refs).
Proof. now rewrite processCluster_eq. Qed.

Lemma table_eq (c : Cluster) (refs : list Transcript) :
  table (run c refs) =
  if projected (run c refs)
  then projectToPolytope c (shares (run c refs))
  else shares (run c refs).
Proof. now rewrite processCluster_eq. Qed.

Lemma warned_eq (c : Cluster) (refs : list Transcript) :
  warned (run c refs) = deqb (logMass c) LOG_0.
Proof. now rewrite processCluster_eq. Qed.
End ClusterRuns.

Section ClusterClaims.
Context {D : Double} {M : SailfishMath D}.
Variable projectToPolytope : Cluster -> list Transcript -> list Transcript.

Local Abbreviation run := (processCluster projectToPolytope).

(** C2, as the code has it.  [requiresProjection] is set exactly when some
    member whose mass is not [LOG_0] has a raw share
    [exp((mass - logClusterMass) + ln numHits)] strictly outside
    [[uniqueCount, totalCount]]; members whose mass is [LOG_0] are not
    tested.  [projectToPolytope] is called exactly when the cluster has more
    than one member and the flag is set. *)
Theorem requiresProjection_iff (c : Cluster) (refs : list Transcript) :
  (requiresProjection (run c refs) = true <->
   exists id t, In id (members c) /\ nth_error refs id = Some t /\
                deqb (mass t) LOG_0 = false /\
                outside (rawShare c t) t = true) /\
  (projected (run c refs) = true <->
   (1 < List.length (members c))%nat /\ requiresProjection (run c refs) = true).
Proof.
  split.
  - rewrite requiresProjection_existsb, existsb_exists. split.
    + intros (id & Hin & Hflag).
      destruct (nth_error refs id) as [t|] eqn:Hnth; [|discriminate].
      apply andb_true_iff in Hflag. destruct Hflag as [Hmass Hout].
      exists id, t. apply negb_true_iff in Hmass. auto.
    + intros (id & t & Hin & Hnth & Hmass & Hout).
      exists id. split; [assumption|]. now rewrite Hnth, Hmass, Hout.
  - rewrite projected_eq, andb_true_iff, Nat.ltb_lt. tauto.
Qed.

(** C3.  For a cluster whose aggregate log-mass equals [LOG_0]: its
    [logMass] compares equal to [LOG_0] and, [logMass] being the aggregate
    over the members, the mass of every member is [LOG_0].  The warning is
    written; no share computation assigns a value other than 0 (when the
    second loop ends every member holds exactly 0); the flag stays unset,
    [projectToPolytope] is not called, and every member's [projectedCounts]
    is 0 when the round ends. *)
Theorem zero_mass_cluster (c : Cluster) (refs : list Transcript) :
  deqb (logMass c) LOG_0 = true ->
  (forall id t, In id (members c) -> nth_error refs id = Some t ->
                deqb (mass t) LOG_0 = true) ->
  warned (run c refs) = true /\
  requiresProjection (run c refs) = false /\
  projected (run c refs) = false /\
  (forall id t, In id (members c) -> nth_error refs id = Some t ->
     exists t', nth_error (shares (run c refs)) id = Some t' /\
                projectedCounts t' = of_N 0) /\
  (forall id t', In id (members c) ->
                 nth_error (table (run c refs)) id = Some t' ->
                 projectedCounts t' = of_N 0).
Proof.
  intros Hzero Hall.
  assert (Hflag : requiresProjection (run c refs) = false).
  { rewrite requiresProjection_existsb. apply not_true_is_false.
    rewrite existsb_exists. intros (id & Hin & Hf).
    destruct (nth_error refs id) as [t|] eqn:Hnth; [|discriminate].
    now rewrite (Hall id t Hin Hnth) in Hf. }
  assert (Hproj : projected (run c refs) = false).
  { now rewrite projected_eq, Hflag, andb_false_r. }
  split; [now rewrite warned_eq|].
  split; [exact Hflag|]. split; [exact Hproj|]. split.
  - intros id t Hin Hnth. eexists.
    split; [exact (shares_member _ c refs id t Hin Hnth)|].
    cbn [projectedCounts setProjectedCounts]. now rewrite (Hall id t Hin Hnth).
  - intros id t' Hin Hnth'. rewrite table_eq, Hproj in Hnth'.
    destruct (nth_error refs id) as [t|] eqn:Hnth.
    + rewrite (shares_member _ c refs id t Hin Hnth) in Hnth'.
      injection Hnth' as <-. now rewrite (Hall id t Hin Hnth).
    + exfalso. rewrite processCluster_eq in Hnth'. cbn [shares] in Hnth'.
      apply memb_In in Hin.
      now rewrite computeShares_nth, Hin, refreshMembers_nth, Hin, Hnth in Hnth'.
Qed.

(** C4, as the code has it.  A member whose mass equals [LOG_0] holds
    [projectedCounts] exactly 0 when the second loop ends, whatever the
    cluster's size, mass and hit count; it still holds 0 when the round ends
    if [projectToPolytope] was not called.  When it was called the value is
    the one [projectToPolytope] left. *)
Theorem LOG_0_member_share (c : Cluster) (refs : list Transcript)
        (id : nat) (t : Transcript) :
  In id (members c) -> nth_error refs id = Some t ->
  deqb (mass t) LOG_0 = true ->
  (exists t', nth_error (shares (run c refs)) id = Some t' /\
              projectedCounts t' = of_N 0) /\
  (projected (run c refs) = false ->
   exists t', nth_error (table (run c refs)) id = Some t' /\
              projectedCounts t' = of_N 0) /\
  (projected (run c refs) = true ->
   table (run c refs) = projectToPolytope c (shares (run c refs))).
Proof.
  intros Hin Hnth Hmass.
  assert (Hshare : exists t', nth_error (shares (run c refs)) id = Some t' /\
                              projectedCounts t' = of_N 0).
  { eexists. split; [exact (shares_member _ c refs id t Hin Hnth)|].
    cbn [projectedCounts setProjectedCounts]. now rewrite Hmass. }
  split; [assumption|]. split.
  - intros Hproj. now rewrite table_eq, Hproj.
  - intros Hproj. now rewrite table_eq, Hproj.
Qed.
End ClusterClaims.

(** ** IEEE zeros *)

Lemma Prim2SF_zero : Prim2SF 0%float = S754_zero false.
Proof. reflexivity. Qed.

Lemma isZero_eqb (x : float) : PrimFloat.eqb x 0 = true <-> isZero x.
Proof.
  rewrite eqb_spec, Prim2SF_zero. unfold isZero. split.
  - destruct (Prim2SF x) as [s|s| |s m e]; try discriminate.
    + intros _. now exists s.
    + destruct s; discriminate.
    + destruct s; discriminate.
  - intros [s ->]. reflexivity.
Qed.

Lemma eqb_zero_ltb_one (x : float) :
  PrimFloat.eqb x 0 = true -> PrimFloat.ltb x 1 = true.
Proof.
  intros H. apply isZero_eqb in H. destruct H as [s Hs].
  rewrite ltb_spec, Hs. now destruct s.
Qed.

Lemma isZero_not_positive (x : float) : isZero x -> PrimFloat.ltb 0 x = false.
Proof. intros [s Hs]. rewrite ltb_spec, Hs. now destruct s. Qed.

Lemma nonZero_inv (y : float) :
  nonZero y = true ->
  (exists s, Prim2SF y = S754_infinity s) \/
  (exists s m e, Prim2SF y = S754_finite s m e).
Proof.
  unfold nonZero. rewrite andb_true_iff, negb_true_iff, !eqb_spec, Prim2SF_zero.
  destruct (Prim2SF y) as [s|s| |s m e]; intros [Hnan Hz].
  - discriminate Hz.
  - left. now exists s.
  - discriminate Hnan.
  - right. now exists s, m, e.
Qed.

Lemma isZero_div (x y : float) :
  isZero x -> nonZero y = true -> isZero (x / y).
Proof.
  intros [s Hs] Hy. unfold isZero. rewrite div_spec, Hs.
  destruct (nonZero_inv y Hy) as [[s' ->] | (s' & m & e & ->)];
    now eexists.
Qed.

Lemma isZero_mul_million (x : float) :
  isZero x -> isZero (x * float_of_N 1000000).
Proof.
  intros [s Hs]. unfold isZero. rewrite mul_spec, Hs.
  assert (Hmillion : exists m e,
            Prim2SF (float_of_N 1000000) = S754_finite false m e)
    by (vm_compute; eauto).
  destruct Hmillion as (m & e & ->). now eexists.
Qed.

(** ** The cluster loop on IEEE inputs *)

(** The lone member of mass [LOG_0] is not flagged, and its raw share lies
    outside its interval. *)
Lemma lone_LOG_0_member (L : Libm) (log0 : float) proj :
  log0 = neg_infinity \/ log0 = infinity ->
  requiresProjection
    (@processCluster (IEEE L) (sailfishMath L log0) proj (loneCluster L)
                     (loneZeroMass L log0)) = false /\
  @outside (IEEE L) (@rawShare (IEEE L) (loneCluster L) (ieeeTranscript L "t0" 1 1 log0))
           (ieeeTranscript L "t0" 1 1 log0) = true.
Proof.
  intros Hlog0. split.
  - rewrite requiresProjection_existsb.
    destruct Hlog0 as [-> | ->]; reflexivity.
  - unfold outside, rawShare, dgtb.
    destruct Hlog0 as [-> | ->]; libm L; reflexivity.
Qed.

(** A pair cluster whose flag is set is projected. *)
Lemma pair_projected (L : Libm) (log0 m m0 m1 : float) proj :
  let run := @processCluster (IEEE L) (sailfishMath L log0) proj
                             (pairCluster L m) (pairTable L m0 m1) in
  requiresProjection run = true -> projected run = true.
Proof. cbv zeta. intros Hflag. now rewrite projected_eq, Hflag. Qed.

(** C2 fails as stated.  In a cluster of one member whose mass is [LOG_0]
    (either infinity) and whose one read is unique, the flag stays unset
    although the member's raw share [exp((LOG_0 - 0) + ln 1)], which is 0 or
    [+inf], lies outside [[1, 1]]. *)
Lemma requiresProjection_skips_LOG_0_members :
  ~ exists (L : Libm) (log0 : float) proj,
      (log0 = neg_infinity \/ log0 = infinity) /\
      let M := sailfishMath L log0 in
      let c := loneCluster L in
      let refs := loneZeroMass L log0 in
      (requiresProjection (@processCluster (IEEE L) M proj c refs) = true <->
       exists id t, In id (members c) /\ nth_error refs id = Some t /\
                    outside (rawShare c t) t = true).
Proof.
  intros (L & log0 & proj & Hlog0 & Hclaim). cbv zeta in Hclaim.
  destruct (lone_LOG_0_member L log0 proj Hlog0) as [Hflag Hout].
  rewrite Hflag in Hclaim.
  assert (Habs : false = true); [|discriminate Habs].
  apply Hclaim. exists 0%nat, (ieeeTranscript L "t0" 1 1 log0).
  repeat split; [now left | exact Hout].
Qed.

(** In the pair cluster the box bounds can be met: the projection onto the
    lower ends meets them. *)
Lemma pair_bounds_attainable (L : Libm) (log0 m m0 m1 : float) :
  let c := pairCluster L m in
  let run := @processCluster (IEEE L) (sailfishMath L log0)
                             (lowerBoundProjection L) c (pairTable L m0 m1) in
  keepsBounds c (shares run) (lowerBoundProjection L c (shares run)).
Proof.
  cbv zeta. intros id t Hin Hnth.
  exists (float_of_N (uniqueCount t)). unfold lowerBoundProjection at 1.
  rewrite nth_error_map, Hnth. split; [reflexivity|].
  destruct Hin as [<- | [<- | []]];
    [ rewrite (@shares_member (IEEE L) (sailfishMath L log0) (lowerBoundProjection L)
                 (pairCluster L m) (pairTable L m0 m1) 0%nat _
                 (or_introl eq_refl) eq_refl) in Hnth
    | rewrite (@shares_member (IEEE L) (sailfishMath L log0) (lowerBoundProjection L)
                 (pairCluster L m) (pairTable L m0 m1) 1%nat _
                 (or_intror (or_introl eq_refl)) eq_refl) in Hnth ];
    injection Hnth as <-; reflexivity.
Qed.

(** C4 fails as stated.  In a pair cluster of log-mass 0 the first member has
    mass [LOG_0] (either infinity) and holds the only read, the second has
    all the mass and no read.  The second member's share [exp(0) = 1] is
    above its [totalCount] 0, so [projectToPolytope] is called; no result
    that meets the bounds leaves the first member at zero, whatever the sign
    of the zero. *)
Lemma LOG_0_member_after_projection :
  ~ exists (L : Libm) (log0 : float) proj,
      (log0 = neg_infinity \/ log0 = infinity) /\
      let M := sailfishMath L log0 in
      let c := pairCluster L 0 in
      let refs := pairTable L log0 0 in
      let run := @processCluster (IEEE L) M proj c refs in
      (projected run = true -> keepsBounds c (shares run) (proj c (shares run))) /\
      forall id t, In id (members c) -> nth_error refs id = Some t ->
                   PrimFloat.eqb (mass t) log0 = true ->
                   exists t', nth_error (table run) id = Some t' /\
                              PrimFloat.eqb (projectedCounts t') 0 = true.
Proof.
  intros (L & log0 & proj & Hlog0 & Hclaim). cbv zeta in Hclaim.
  destruct Hclaim as [Hkeep Hclaim].
  assert (Hproj : projected (@processCluster (IEEE L) (sailfishMath L log0) proj
                    (pairCluster L 0) (pairTable L log0 0)) = true).
  { apply pair_projected. rewrite requiresProjection_existsb.
    unfold outside, rawShare, dgtb.
    destruct Hlog0 as [-> | ->]; libm L; reflexivity. }
  specialize (Hkeep Hproj 0%nat _ (or_introl eq_refl)
    (@shares_member (IEEE L) (sailfishMath L log0) proj
       (pairCluster L 0) (pairTable L log0 0) 0%nat _ (or_introl eq_refl) eq_refl)).
  destruct Hkeep as (x & Hx & Hout).
  destruct (Hclaim 0%nat _ (or_introl eq_refl) eq_refl) as (t' & Ht' & Hzero).
  { destruct Hlog0 as [-> | ->]; reflexivity. }
  rewrite table_eq, Hproj, Hx in Ht'. injection Ht' as <-.
  cbn in Hzero. apply eqb_zero_ltb_one in Hzero.
  unfold outside, dgtb in Hout. cbn in Hout.
  rewrite Hzero in Hout. now rewrite orb_true_r in Hout.
Qed.

(** The statement of C3 at a pair cluster of log-mass [LOG_0] whose two
    members have mass [LOG_0]. *)
Lemma zero_mass_cluster_witness :
  let L := specialLibm in
  let M := sailfishMath L neg_infinity in
  let c := pairCluster L neg_infinity in
  let refs := pairTable L neg_infinity neg_infinity in
  let run := @processCluster (IEEE L) M (identityProjection L) c refs in
  warned run = true /\ requiresProjection run = false /\ projected run = false /\
  forall id t', In id (members c) -> nth_error (table run) id = Some t' ->
                projectedCounts t' = 0%float.
Proof.
  cbv zeta.
  pose proof (@zero_mass_cluster (IEEE specialLibm) (sailfishMath specialLibm neg_infinity)
                (identityProjection specialLibm) (pairCluster specialLibm neg_infinity)
                (pairTable specialLibm neg_infinity neg_infinity) eq_refl)
    as Hthm.
  destruct Hthm as (Hwarn & Hflag & Hproj & _ & Htable).
  - intros id t [<- | [<- | []]] Hnth; injection Hnth as <-; reflexivity.
  - repeat split; assumption.
Defined.

(** The statement of C4 at the first member of a pair cluster. *)
Lemma LOG_0_member_share_witness :
  let L := specialLibm in
  let M := sailfishMath L infinity in
  let run := @processCluster (IEEE L) M (identityProjection L) (pairCluster L 0)
                             (pairTable L infinity 0) in
  exists t', nth_error (shares run) 0 = Some t' /\ projectedCounts t' = 0%float.
Proof.
  cbv zeta.
  exact (proj1 (@LOG_0_member_share (IEEE specialLibm) (sailfishMath specialLibm infinity)
                  (identityProjection specialLibm) (pairCluster specialLibm 0)
                  (pairTable specialLibm infinity 0) 0%nat _
                  (or_introl eq_refl) eq_refl eq_refl)).
Defined.

(** ** The normalizer *)

Section NormalizerRows.
Context {D : Double}.

Lemma normalize_nth (sopt : SalmonOpts) (numMapped : N)
      (refs : list Transcript) (i : nat) :
  nth_error (normalize sopt numMapped refs) i =
  option_map (rowOf sopt numMapped (tfracDenomOf sopt numMapped refs))
             (nth_error refs i).
Proof. unfold normalize. apply nth_error_map. Qed.

(** One row per transcript. *)
Lemma normalize_length (sopt : SalmonOpts) (numMapped : N) (refs : list Transcript) :
  List.length (normalize sopt numMapped refs) = List.length refs.
Proof. unfold normalize. apply length_map. Qed.

(** The rows [writeAbundances] writes are those of the normalizer on the
    table the cluster loop leaves. *)
Lemma writeAbundances_rows {M : SailfishMath D}
      (projectToPolytope : Cluster -> list Transcript -> list Transcript)
      (sopt : SalmonOpts) (alnLib : Library) (headerComments : string) :
  rows (writeAbundances projectToPolytope sopt alnLib headerComments) =
  normalize sopt (numMappedReads alnLib)
            (fst (processClusters projectToPolytope (clusters alnLib)
                                  (transcripts alnLib))).
Proof.
  unfold writeAbundances.
  now destruct (processClusters projectToPolytope (clusters alnLib)
                                (transcripts alnLib)).
Qed.
End NormalizerRows.

Section NormalizerIEEE.
Variable L : Libm.

Local Abbreviation Tr := (@Transcript (IEEE L)).

(** C8, as the code has it.  The row written for the transcript at position
    [i] carries [count = projectedCounts]; [fpkm] is [fpkmFactor * count] with
    [fpkmFactor = exp(ln 1e9 - logEffectiveLength - ln numMappedReads)] when
    [count > 0], and exactly 0 when [count == 0], whatever the logarithms
    are; [tpm] is [tfrac * 1e6] with
    [tfrac = ((count / numMappedReads) / effectiveLength) / tfracDenom].
    When [count == 0] the TPM is [== 0] provided [numMappedReads], the
    effective length and [tfracDenom] are neither zero nor NaN. *)
Theorem normalizer_second_pass (sopt : SalmonOpts) (numMapped : N)
        (refs : list Tr) (i : nat) (t : Tr) :
  nth_error refs i = Some t ->
  let tfracDenom := tfracDenomOf sopt numMapped refs in
  let count := projectedCounts t in
  let fpkmFactor :=
    std_exp L (std_log L (float_of_N 1000000000) - logEffectiveLength sopt t
               - std_log L (float_of_N numMapped))%float in
  let tfrac :=
    (count / float_of_N numMapped / effectiveLength sopt t / tfracDenom)%float in
  exists row,
    nth_error (normalize sopt numMapped refs) i = Some row /\
    rowNumReads row = count /\
    (PrimFloat.ltb 0 count = true -> rowFPKM row = (fpkmFactor * count)%float) /\
    (PrimFloat.eqb count 0 = true -> rowFPKM row = 0%float) /\
    rowTPM row = (tfrac * float_of_N 1000000)%float /\
    (PrimFloat.eqb count 0 = true ->
     nonZero (float_of_N numMapped) = true ->
     nonZero (effectiveLength sopt t) = true ->
     nonZero tfracDenom = true ->
     PrimFloat.eqb (rowTPM row) 0 = true).
Proof.
  intros Hnth. cbv zeta.
  exists (rowOf sopt numMapped (tfracDenomOf sopt numMapped refs) t).
  split; [now rewrite normalize_nth, Hnth|].
  split; [reflexivity|].
  split.
  { intros Hpos. unfold rowOf, dgtb. cbn -[float_of_N].
    change (float_of_N 0) with 0%float. now rewrite Hpos. }
  split.
  { intros Hzero. apply isZero_eqb, isZero_not_positive in Hzero.
    unfold rowOf, dgtb. cbn -[float_of_N].
    change (float_of_N 0) with 0%float. now rewrite Hzero. }
  split; [reflexivity|].
  intros Hzero Hn Hlen Hden. apply isZero_eqb in Hzero.
  apply isZero_eqb. unfold rowOf. cbn -[float_of_N].
  apply isZero_mul_million.
  repeat apply isZero_div; assumption.
Qed.
End NormalizerIEEE.

(** The statement of C8 at the one transcript of [idleTable]. *)
Lemma normalizer_second_pass_witness :
  exists row,
    nth_error (@normalize (IEEE specialLibm) (mkSalmonOpts true) 1
                          (idleTable specialLibm)) 0 = Some row /\
    rowNumReads row = 0%float /\ rowFPKM row = 0%float.
Proof.
  destruct (normalizer_second_pass specialLibm (mkSalmonOpts true) 1
              (idleTable specialLibm) 0 _ eq_refl)
    as (row & Hrow & Hcount & _ & Hfpkm & _).
  exists row. repeat split; [exact Hrow | exact Hcount | exact (Hfpkm eq_refl)].
Defined.

(** C8 fails as stated.  With one transcript of length 1 and count 0 and one
    mapped read, [tfracDenom] is 0 and the TPM written is [0/0 * 1e6], which
    is NaN and not [== 0], with the effective-length correction and
    without. *)
Lemma zero_count_tpm_is_nan :
  ~ exists (L : Libm) (sopt : SalmonOpts),
      forall row, In row (@normalize (IEEE L) sopt 1 (idleTable L)) ->
                  PrimFloat.eqb (rowNumReads row) 0 = true ->
                  PrimFloat.eqb (rowTPM row) 0 = true.
Proof.
  intros (L & [noEff] & Hclaim).
  specialize (Hclaim _ (or_introl eq_refl) eq_refl).
  revert Hclaim. unfold rowOf, tfracDenomOf.
  destruct noEff; libm L; discriminate.
Qed.

(** *** Exact arithmetic *)

Section NormalizerExact.
Local Open Scope R_scope.

Local Abbreviation Tr := (@Transcript Exact).

(** The summand of pass 1. *)
Local Abbreviation summand sopt numMapped t :=
  (exactDiv (exactDiv (projectedCounts t) (Some (IZR (Z.of_N numMapped))))
            (if noEffectiveLengthCorrection sopt
             then Some (IZR (Z.of_N (RefLength t)))
             else option_map exp (cachedEffectiveLength t))).

(** A defined sum is a sum of defined summands. *)
Lemma tfracDenomOf_fold (sopt : SalmonOpts) (numMapped : N) (refs : list Tr)
      (a : option R) (d : R) :
  fold_left (fun tfracDenom transcript =>
               lift2 Rplus tfracDenom (summand sopt numMapped transcript))
            refs a = Some d ->
  exists a0 ss, a = Some a0 /\
                Forall2 (fun t s => summand sopt numMapped t = Some s) refs ss /\
                d = a0 + sumR ss.
Proof.
  revert a. induction refs as [|t refs IH]; intros a Hfold; cbn [fold_left] in Hfold.
  - exists d, []. subst a. repeat split; [constructor | simpl; lra].
  - destruct (IH _ Hfold) as (a1 & ss & Ha1 & Hss & Hd).
    destruct a as [a0|]; [|discriminate Ha1].
    destruct (summand sopt numMapped t) as [s|] eqn:Hs; [|discriminate Ha1].
    injection Ha1 as <-.
    exists a0, (s :: ss). repeat split; [now constructor | simpl; lra].
Qed.

Lemma exactDiv_Some (a b : option R) (q : R) :
  exactDiv a b = Some q ->
  exists x y, a = Some x /\ b = Some y /\ y <> 0 /\ q = x / y.
Proof.
  destruct a as [x|], b as [y|]; simpl; try discriminate.
  destruct (Req_dec_T y 0) as [|Hy]; [discriminate|].
  intros [= <-]. now exists x, y.
Qed.

Lemma exactDiv_defined (x y : R) : y <> 0 -> exactDiv (Some x) (Some y) = Some (x / y).
Proof. intros Hy. simpl. now destruct (Req_dec_T y 0). Qed.

(** Pass 2 divides by the length pass 1 divided by: where the summand of
    pass 1 is defined, the TPM of the row is the summand over [tfracDenom],
    times 1e6. *)
Lemma rowTPM_summand (sopt : SalmonOpts) (numMapped : N) (d s : R) (t : Tr) :
  d <> 0 ->
  summand sopt numMapped t = Some s ->
  rowTPM (rowOf sopt numMapped (Some d) t) = Some (s / d * 1000000).
Proof.
  intros Hd Hs.
  apply exactDiv_Some in Hs. destruct Hs as (npm & len & Hnpm & Hlen & Hlen0 & ->).
  unfold rowOf. cbn [rowTPM dmul ddiv dexp dlog of_N Exact].
  match goal with
  | |- context [exactDiv _ (option_map exp ?e)] =>
      assert (Hexp : option_map exp e = Some len)
  end.
  { destruct (noEffectiveLengthCorrection sopt); [|exact Hlen].
    injection Hlen as <-.
    assert (Hpos : 0 < IZR (Z.of_N (RefLength t))).
    { assert (0 <= IZR (Z.of_N (RefLength t))) by (apply IZR_le; lia). lra. }
    simpl. destruct (Rlt_dec 0 (IZR (Z.of_N (RefLength t)))) as [_|Hn];
      [|contradiction].
    simpl. now rewrite exp_ln. }
  rewrite Hexp, Hnpm, (exactDiv_defined _ _ Hlen0), (exactDiv_defined _ _ Hd).
  reflexivity.
Qed.

Lemma sumTPM_rows (sopt : SalmonOpts) (numMapped : N) (d : R)
      (refs : list Tr) (ss : list R) :
  d <> 0 ->
  Forall2 (fun t s => summand sopt numMapped t = Some s) refs ss ->
  sumTPM (map (rowOf sopt numMapped (Some d)) refs) =
  Some (sumR ss / d * 1000000).
Proof.
  intros Hd Hss. induction Hss as [|t s refs ss Hs _ IH]; cbn [map sumTPM fold_right].
  - simpl. f_equal. lra.
  - fold (sumTPM (map (rowOf sopt numMapped (Some d)) refs)).
    rewrite IH, (rowTPM_summand sopt numMapped d s t Hd Hs).
    simpl. f_equal. lra.
Qed.

(** C9. In exact arithmetic, whenever [tfracDenom] is (defined and) not
    zero, every TPM written is defined and the TPM values sum to exactly
    1e6: each [tfrac] is the transcript's summand of pass 1 divided by the
    sum of pass 1. *)
Theorem tpm_sums_to_million (sopt : SalmonOpts) (numMapped : N)
        (refs : list Tr) (d : R) :
  tfracDenomOf sopt numMapped refs = Some d -> d <> 0 ->
  sumTPM (normalize sopt numMapped refs) = Some 1000000.
Proof.
  intros Hden Hd. unfold normalize. rewrite Hden.
  unfold tfracDenomOf in Hden.
  apply tfracDenomOf_fold in Hden.
  destruct Hden as (a0 & ss & Ha0 & Hss & Hsum).
  injection Ha0 as Ha0. simpl in Ha0.
  rewrite (sumTPM_rows sopt numMapped d refs ss Hd Hss).
  f_equal. replace (sumR ss) with d by lra. field. exact Hd.
Qed.
End NormalizerExact.

(** The statement of C9 at two transcripts of lengths 2 and 4 and counts 1
    and 3, with 4 mapped reads. *)
Lemma tpm_sums_to_million_witness :
  sumTPM (@normalize Exact (mkSalmonOpts true) 4 exactTable) = Some 1000000%R.
Proof.
  apply (tpm_sums_to_million (mkSalmonOpts true) 4 exactTable (1 / 4 / 2 + 3 / 4 / 4)%R).
  - unfold tfracDenomOf, exactTable. cbn -[exactDiv].
    rewrite !exactDiv_defined by lra. cbn. f_equal. lra.
  - lra.
Defined.

(** * Further properties *)

(** ** SAM headers *)

Section HeaderLoop.
Import Headers.

(** Once [consistent] is false the loop is over. *)
Lemma headerLoop_false (h1 h2 : SAM_hdr) (n fuel i : nat) :
  headerLoop h1 h2 n fuel i false = false.
Proof. destruct fuel; reflexivity. Qed.

(** More fuel than the rounds left changes nothing. *)
Lemma headerLoop_fuel (h1 h2 : SAM_hdr) (n fuel fuel' i : nat) (c : bool) :
  (n <= fuel + i)%nat -> (n <= fuel' + i)%nat ->
  headerLoop h1 h2 n fuel i c = headerLoop h1 h2 n fuel' i c.
Proof.
  revert fuel' i c. induction fuel as [|fuel IH]; intros fuel' i c Hf Hf'.
  - destruct fuel' as [|fuel']; [reflexivity|]. simpl.
    assert (Hlt : (i <? n)%nat = false) by (apply Nat.ltb_ge; lia).
    now rewrite Hlt, andb_false_r.
  - destruct fuel' as [|fuel'].
    + simpl. assert (Hlt : (i <? n)%nat = false) by (apply Nat.ltb_ge; lia).
      now rewrite Hlt, andb_false_r.
    + simpl. destruct c; simpl; [|reflexivity].
      destruct (i <? n)%nat eqn:Hlt; [|reflexivity].
      destruct (nth_error (ref h1) i), (nth_error (ref h2) i); try reflexivity.
      apply IH; lia.
Qed.

Lemma SAM_ref_eqb_eq (r1 r2 : SAM_ref) :
  (len r1 =? len r2)%N && String.eqb (name r1) (name r2) = true <-> r1 = r2.
Proof.
  rewrite andb_true_iff, N.eqb_eq, String.eqb_eq.
  destruct r1, r2; simpl. split.
  - now intros [-> ->].
  - now intros [= -> ->].
Qed.

Lemma skipn_cons_nth_error {A : Type} (l : list A) (i : nat) (x : A) :
  nth_error l i = Some x -> skipn i l = x :: skipn (Datatypes.S i) l.
Proof.
  revert i. induction l as [|y l IH]; intros [|i] E; simpl in *;
    try discriminate; [now injection E as -> | now apply IH].
Qed.

(** The loop started at [i] with [consistent] true on two tables of [n]
    targets: it ends true exactly when the tables agree from [i] on. *)
Lemma headerLoop_true (h1 h2 : SAM_hdr) (n fuel i : nat) :
  n = List.length (ref h1) -> n = List.length (ref h2) ->
  (n <= fuel + i)%nat ->
  (headerLoop h1 h2 n fuel i true = true <->
   skipn i (ref h1) = skipn i (ref h2)).
Proof.
  intros H1 H2. revert i. induction fuel as [|fuel IH]; intros i Hfuel.
  - cbn [headerLoop]. split; [intros _|reflexivity].
    rewrite !skipn_all2 by lia. reflexivity.
  - cbn [headerLoop andb]. destruct (i <? n)%nat eqn:Hlt.
    + apply Nat.ltb_lt in Hlt.
      destruct (nth_error (ref h1) i) as [r1|] eqn:E1;
        [|apply nth_error_None in E1; lia].
      destruct (nth_error (ref h2) i) as [r2|] eqn:E2;
        [|apply nth_error_None in E2; lia].
      cbv zeta.
      rewrite (skipn_cons_nth_error _ _ _ E1), (skipn_cons_nth_error _ _ _ E2).
      destruct ((len r1 =? len r2)%N && String.eqb (name r1) (name r2)) eqn:Heq.
      * apply SAM_ref_eqb_eq in Heq. subst r2.
        rewrite IH by lia. split; [intros H; f_equal; exact H | intros [= H]; exact H].
      * rewrite headerLoop_false. split; [discriminate|].
        intros [= Hr _]. apply SAM_ref_eqb_eq in Hr. congruence.
    + apply Nat.ltb_ge in Hlt. split; [intros _|reflexivity].
      rewrite !skipn_all2 by lia. reflexivity.
Qed.

Lemma headersAreConsistent_spec (h1 h2 : SAM_hdr) :
  wellFormed h1 -> wellFormed h2 ->
  (headersAreConsistent h1 h2 = true <-> ref h1 = ref h2).
Proof.
  unfold wellFormed, headersAreConsistent. intros W1 W2. cbv zeta.
  destruct (nref h1 =? nref h2)%nat eqn:Hn; simpl.
  - apply Nat.eqb_eq in Hn.
    rewrite (headerLoop_true h1 h2 (nref h1) (nref h1) 0) by (lia || congruence).
    reflexivity.
  - rewrite headerLoop_false. split; [discriminate|].
    intros Href. apply Nat.eqb_neq in Hn. rewrite W1, W2, Href in Hn. congruence.
Qed.
End HeaderLoop.

Section HeaderProperties.
Import Headers.

Lemma wellFormed_eq (h1 h2 : SAM_hdr) :
  wellFormed h1 -> wellFormed h2 -> ref h1 = ref h2 -> h1 = h2.
Proof.
  unfold wellFormed. destruct h1 as [n1 r1], h2 as [n2 r2]; simpl.
  intros -> -> ->. reflexivity.
Qed.

(** X1. Two well-formed headers are consistent exactly when they are the
    same header: the same number of targets, and at every index the same
    name and the same length. *)
Theorem headersAreConsistent_iff_equal (h1 h2 : SAM_hdr) :
  wellFormed h1 -> wellFormed h2 ->
  (headersAreConsistent h1 h2 = true <-> h1 = h2).
Proof.
  intros W1 W2. rewrite (headersAreConsistent_spec h1 h2 W1 W2). split.
  - now apply wellFormed_eq.
  - now intros ->.
Qed.

(** X1 at two headers of the same two targets. *)
Lemma headersAreConsistent_iff_equal_witness :
  headersAreConsistent (mkHdr 2 [mkRef "chr1" 1000; mkRef "chr2" 500])
                       (mkHdr 2 [mkRef "chr1" 1000; mkRef "chr2" 500]) = true.
Proof.
  apply (headersAreConsistent_iff_equal
           (mkHdr 2 [mkRef "chr1" 1000; mkRef "chr2" 500])
           (mkHdr 2 [mkRef "chr1" 1000; mkRef "chr2" 500])
           eq_refl eq_refl).
  reflexivity.
Defined.

(** X2. Headers whose target counts differ are inconsistent, and no target
    is read to find that out: the result is the same whatever the two
    tables hold. *)
Theorem headersAreConsistent_count_mismatch (h1 h2 : SAM_hdr) :
  nref h1 <> nref h2 ->
  headersAreConsistent h1 h2 = false /\
  forall refs1 refs2,
    headersAreConsistent (mkHdr (nref h1) refs1) (mkHdr (nref h2) refs2) = false.
Proof.
  intros Hn. apply Nat.eqb_neq in Hn.
  split; [|intros refs1 refs2];
    unfold headersAreConsistent; cbn [nref]; rewrite Hn; apply headerLoop_false.
Qed.

(** X2 at a header of one target and a header of two. *)
Lemma headersAreConsistent_count_mismatch_witness :
  headersAreConsistent (mkHdr 1 [mkRef "chr1" 1000])
                       (mkHdr 2 [mkRef "chr1" 1000; mkRef "chr2" 500]) = false.
Proof.
  apply (headersAreConsistent_count_mismatch
           (mkHdr 1 [mkRef "chr1" 1000])
           (mkHdr 2 [mkRef "chr1" 1000; mkRef "chr2" 500])).
  discriminate.
Defined.

(** X3. On well-formed headers consistency is reflexive, symmetric and
    transitive, although the function takes the number of rounds from its
    first argument alone. *)
Theorem headersAreConsistent_equivalence (h1 h2 h3 : SAM_hdr) :
  wellFormed h1 -> wellFormed h2 -> wellFormed h3 ->
  headersAreConsistent h1 h1 = true /\
  headersAreConsistent h1 h2 = headersAreConsistent h2 h1 /\
  (headersAreConsistent h1 h2 = true -> headersAreConsistent h2 h3 = true ->
   headersAreConsistent h1 h3 = true).
Proof.
  intros W1 W2 W3. split; [|split].
  - now apply headersAreConsistent_spec.
  - apply eq_true_iff_eq.
    rewrite (headersAreConsistent_spec h1 h2 W1 W2),
            (headersAreConsistent_spec h2 h1 W2 W1).
    split; intros H; now symmetry.
  - rewrite (headersAreConsistent_spec h1 h2 W1 W2),
            (headersAreConsistent_spec h2 h3 W2 W3),
            (headersAreConsistent_spec h1 h3 W1 W3).
    intros -> ->. reflexivity.
Qed.

(** X3, symmetry, at a header of one target and an empty header. *)
Lemma headersAreConsistent_equivalence_witness :
  headersAreConsistent (mkHdr 1 [mkRef "chr1" 1000]) (mkHdr 0 []) =
  headersAreConsistent (mkHdr 0 []) (mkHdr 1 [mkRef "chr1" 1000]).
Proof.
  exact (proj1 (proj2 (headersAreConsistent_equivalence
                         (mkHdr 1 [mkRef "chr1" 1000]) (mkHdr 0 []) (mkHdr 0 [])
                         eq_refl eq_refl eq_refl))).
Defined.

Lemma compareWithFirst_spec (first : SAM_hdr) (others : list SAM_hdr) :
  compareWithFirst first others = true <->
  forall h, In h others -> headersAreConsistent first h = true.
Proof.
  induction others as [|h others IH]; simpl.
  - split; [intros _ h [] | reflexivity].
  - destruct (headersAreConsistent first h) eqn:Hc; simpl.
    + rewrite IH. split.
      * intros Hall h' [<- | Hin]; [exact Hc | now apply Hall].
      * intros Hall h' Hin. apply Hall. now right.
    + split; [discriminate|]. intros Hall.
      rewrite <- Hc. apply Hall. now left.
Qed.

(** X4. A non-empty list of well-formed headers has a result, and the result
    is true exactly when every two headers of the list are consistent with
    each other, although only the first is compared with the others. *)
Theorem headersAreConsistentAll_pairwise (first : SAM_hdr) (others : list SAM_hdr) :
  Forall wellFormed (first :: others) ->
  exists b, headersAreConsistentAll (first :: others) = Some b /\
            (b = true <->
             forall h h', In h (first :: others) -> In h' (first :: others) ->
                          headersAreConsistent h h' = true).
Proof.
  intros Hwf. rewrite Forall_forall in Hwf.
  assert (Hfirst : wellFormed first) by (apply Hwf; now left).
  exists (compareWithFirst first others). split.
  - destruct others; reflexivity.
  - rewrite compareWithFirst_spec. split.
    + intros Hall h h' Hin Hin'.
      assert (Heq : forall x, In x (first :: others) -> ref first = ref x).
      { intros x [<- | Hx]; [reflexivity|].
        apply (headersAreConsistent_spec first x Hfirst (Hwf x (or_intror Hx))).
        now apply Hall. }
      apply (headersAreConsistent_spec h h' (Hwf h Hin) (Hwf h' Hin')).
      rewrite <- (Heq h Hin), <- (Heq h' Hin'). reflexivity.
    + intros Hall h Hin. apply Hall; [now left | now right].
Qed.

(** X4 at three headers, the last with another length. *)
Lemma headersAreConsistentAll_pairwise_witness :
  exists b,
    headersAreConsistentAll
      [mkHdr 1 [mkRef "chr1" 1000]; mkHdr 1 [mkRef "chr1" 1000];
       mkHdr 1 [mkRef "chr1" 999]] = Some b.
Proof.
  destruct (headersAreConsistentAll_pairwise
              (mkHdr 1 [mkRef "chr1" 1000])
              [mkHdr 1 [mkRef "chr1" 1000]; mkHdr 1 [mkRef "chr1" 999]])
    as (b & Hb & _).
  - repeat constructor.
  - exists b. exact Hb.
Defined.
End HeaderProperties.

(** ** [operator<<] for [OrphanStatus] *)

Lemma append_cancel (os a b : string) : (os ++ a = os ++ b)%string -> a = b.
Proof.
  induction os as [|c os IH]; simpl; [trivial|].
  intros [= H]. now apply IH.
Qed.

Lemma append_empty (os : string) : (os ++ "")%string = os.
Proof. induction os as [|c os IH]; simpl; [reflexivity | now rewrite IH]. Qed.

Lemma prefix_append (os a : string) : String.prefix os (os ++ a) = true.
Proof.
  induction os as [|c os IH]; simpl; [now destruct a|].
  destruct (Ascii.ascii_dec c c) as [_|Hc]; [exact IH | contradiction].
Qed.

(** X5. Printing a status adds to what the stream holds and takes nothing
    away, and two statuses are printed alike only if they are the same
    status. *)
Theorem printOrphanStatus_distinguishes (os : string) (s1 s2 : OrphanStatus) :
  String.prefix os (printOrphanStatus os s1) = true /\
  printOrphanStatus os s1 <> os /\
  (printOrphanStatus os s1 = printOrphanStatus os s2 -> s1 = s2).
Proof.
  split; [|split].
  - destruct s1; apply prefix_append.
  - intros H. rewrite <- (append_empty os) in H at 2.
    destruct s1; apply append_cancel in H; discriminate H.
  - intros H. destruct s1, s2; try reflexivity;
      apply append_cancel in H; discriminate H.
Qed.

(** ** Classifier and scorer together *)


Section ScorerProperties.
Context {D : Double} {M : SailfishMath D}.

(** X7. A format scored against itself is never given [incompatPrior]: the
    score is [LOG_ONEHALF] for an unstranded format and [LOG_1] for every
    other one. *)
Theorem logAlignFormatProb_self (lf : LibraryFormat) (incompatPrior : double) :
  logAlignFormatProb lf lf incompatPrior =
  match strandedness lf with
  | ReadStrandedness.U => LOG_ONEHALF
  | _ => LOG_1
  end.
Proof.
  destruct lf as [t o s]. unfold logAlignFormatProb.
  destruct t, o, s; reflexivity.
Qed.

(** X8. The two formats alone decide the score: for a given pair of formats
    either every [incompatPrior] is returned as it is, or the score is one of
    the three constants [LOG_1], [LOG_ONEHALF], [LOG_ORPHAN_PROB] whatever
    [incompatPrior] is. *)
Theorem logAlignFormatProb_prior_or_constant (observed expected : LibraryFormat) :
  (forall incompatPrior,
     logAlignFormatProb observed expected incompatPrior = incompatPrior) \/
  (exists k, (k = LOG_1 \/ k = LOG_ONEHALF \/ k = LOG_ORPHAN_PROB) /\
             forall incompatPrior,
               logAlignFormatProb observed expected incompatPrior = k).
Proof.
  unfold logAlignFormatProb.
  destruct (ReadType.eqb (type expected) ReadType.PAIRED_END &&
            ReadType.eqb (type observed) ReadType.SINGLE_END).
  - destruct (ReadStrandedness.eqb (strandedness expected) ReadStrandedness.U ||
              ReadStrandedness.eqb (strandedness expected) ReadStrandedness.AS ||
              ReadStrandedness.eqb (strandedness expected) ReadStrandedness.SA).
    + right. exists LOG_1. auto.
    + destruct (ReadStrandedness.eqb (strandedness expected) (strandedness observed)).
      * right. exists LOG_ORPHAN_PROB. auto.
      * now left.
  - destruct (negb (ReadType.eqb (type observed) (type expected)) ||
              negb (ReadOrientation.eqb (orientation observed) (orientation expected))).
    + now left.
    + destruct (ReadStrandedness.eqb (strandedness expected) ReadStrandedness.U).
      * right. exists LOG_ONEHALF. auto.
      * destruct (ReadStrandedness.eqb (strandedness expected) (strandedness observed)).
        -- right. exists LOG_1. auto.
        -- now left.
Qed.

(** X9. A single end classified by [hitType] and scored against a paired-end
    library: the score does not depend on the position nor on the expected
    orientation; it is [LOG_1] for the libraries U, AS and SA, and for the
    libraries S and A it is [LOG_ORPHAN_PROB] when the strand of the read is
    the library's and [incompatPrior] when it is not. *)
Theorem orphan_score (start : N) (isForward : bool) (expected : LibraryFormat)
        (incompatPrior : double) :
  type expected = ReadType.PAIRED_END ->
  logAlignFormatProb (hitTypeSingle start isForward) expected incompatPrior =
  match strandedness expected with
  | ReadStrandedness.U | ReadStrandedness.AS | ReadStrandedness.SA => LOG_1
  | ReadStrandedness.S => if isForward then LOG_ORPHAN_PROB else incompatPrior
  | ReadStrandedness.A => if isForward then incompatPrior else LOG_ORPHAN_PROB
  end.
Proof.
  destruct expected as [t o s]. simpl. intros ->.
  unfold logAlignFormatProb, hitTypeSingle.
  destruct isForward, s; reflexivity.
Qed.

(** X10. A single end classified by [hitType] and scored against a
    single-end library: a library whose orientation is not [NONE] gives
    [incompatPrior] to every read, and so do the libraries SA and AS;
    otherwise the score is [LOG_ONEHALF] for the library U, and for the
    libraries S and A it is [LOG_1] when the strand of the read is the
    library's and [incompatPrior] when it is not. *)
Theorem single_end_score (start : N) (isForward : bool) (expected : LibraryFormat)
        (incompatPrior : double) :
  type expected = ReadType.SINGLE_END ->
  logAlignFormatProb (hitTypeSingle start isForward) expected incompatPrior =
  match orientation expected, strandedness expected with
  | ReadOrientation.NONE, ReadStrandedness.U => LOG_ONEHALF
  | ReadOrientation.NONE, ReadStrandedness.S =>
      if isForward then LOG_1 else incompatPrior
  | ReadOrientation.NONE, ReadStrandedness.A =>
      if isForward then incompatPrior else LOG_1
  | _, _ => incompatPrior
  end.
Proof.
  destruct expected as [t o s]. simpl. intros ->.
  unfold logAlignFormatProb, hitTypeSingle.
  destruct isForward, o, s; reflexivity.
Qed.

(** X11. A pair classified by [hitType] and scored against a single-end
    library is given [incompatPrior], whatever the positions, the strands
    and the rest of the library's format. *)
Theorem paired_against_single_end (end1Start end2Start : N) (end1Fwd end2Fwd : bool)
        (observed expected : LibraryFormat) (incompatPrior : double) :
  hitType end1Start end1Fwd end2Start end2Fwd = Returned observed ->
  type expected = ReadType.SINGLE_END ->
  logAlignFormatProb observed expected incompatPrior = incompatPrior.
Proof.
  intros Hhit Hty.
  assert (Hobs : type observed = ReadType.PAIRED_END).
  { unfold hitType in Hhit.
    destruct end1Fwd, end2Fwd; simpl in Hhit;
      repeat match type of Hhit with
             | context [if ?b then _ else _] => destruct b
             end;
      now inversion Hhit. }
  destruct observed as [ot oo os], expected as [et eo es]. simpl in *. subst.
  reflexivity.
Qed.
End ScorerProperties.

(** X9 at a reverse read and the library (PAIRED_END, TOWARD, A). *)
Lemma orphan_score_witness :
  @logAlignFormatProb (IEEE specialLibm) (sailfishMath specialLibm neg_infinity)
    (hitTypeSingle 7 false)
    (mkLibraryFormat ReadType.PAIRED_END ReadOrientation.TOWARD ReadStrandedness.A)
    (-50)%float = (-0x1.26bb1bbb55516p+1)%float.
Proof.
  exact (@orphan_score (IEEE specialLibm) (sailfishMath specialLibm neg_infinity)
           7 false
           (mkLibraryFormat ReadType.PAIRED_END ReadOrientation.TOWARD
                            ReadStrandedness.A)
           (-50)%float eq_refl).
Defined.

(** X10 at a forward read and a single-end library of orientation TOWARD. *)
Lemma single_end_score_witness :
  @logAlignFormatProb (IEEE specialLibm) (sailfishMath specialLibm neg_infinity)
    (hitTypeSingle 7 true)
    (mkLibraryFormat ReadType.SINGLE_END ReadOrientation.TOWARD ReadStrandedness.S)
    (-50)%float = (-50)%float.
Proof.
  exact (@single_end_score (IEEE specialLibm) (sailfishMath specialLibm neg_infinity)
           7 true
           (mkLibraryFormat ReadType.SINGLE_END ReadOrientation.TOWARD
                            ReadStrandedness.S)
           (-50)%float eq_refl).
Defined.

(** X11 at an inward pair and an unstranded single-end library. *)
Lemma paired_against_single_end_witness :
  @logAlignFormatProb (IEEE specialLibm) (sailfishMath specialLibm neg_infinity)
    (mkLibraryFormat ReadType.PAIRED_END ReadOrientation.TOWARD ReadStrandedness.SA)
    (mkLibraryFormat ReadType.SINGLE_END ReadOrientation.NONE ReadStrandedness.U)
    (-50)%float = (-50)%float.
Proof.
  exact (@paired_against_single_end (IEEE specialLibm)
           (sailfishMath specialLibm neg_infinity) 100 250 true false
           _ (mkLibraryFormat ReadType.SINGLE_END ReadOrientation.NONE
                              ReadStrandedness.U)
           (-50)%float eq_refl eq_refl).
Defined.

(** ** The cluster loop: what it touches *)

Lemma nth_error_length_eq {A B : Type} (l : list A) (l' : list B) :
  (forall j, nth_error l j = None <-> nth_error l' j = None) ->
  List.length l = List.length l'.
Proof.
  intros H.
  assert (H1 : nth_error l (List.length l') = None).
  { apply H, nth_error_None. lia. }
  assert (H2 : nth_error l' (List.length l) = None).
  { apply H, nth_error_None. lia. }
  apply nth_error_None in H1, H2. lia.
Qed.

Lemma existsb_In_ext {A : Type} (f g : A -> bool) (l : list A) :
  (forall x, In x l -> f x = g x) -> existsb f l = existsb g l.
Proof.
  induction l as [|x l IH]; simpl; intros H; [reflexivity|].
  rewrite (H x (or_introl eq_refl)), IH; [reflexivity|].
  intros y Hy. apply H. now right.
Qed.

Lemma existsb_same_elements {A : Type} (f : A -> bool) (l l' : list A) :
  (forall x, In x l <-> In x l') -> existsb f l = existsb f l'.
Proof.
  intros H. apply eq_true_iff_eq. rewrite !existsb_exists.
  split; intros (x & Hin & Hf); exists x; (split; [now apply H | exact Hf]).
Qed.

Section ShareStageProperties.
Context {D : Double} {M : SailfishMath D}.
Variable projectToPolytope : Cluster -> list Transcript -> list Transcript.

Local Abbreviation run := (processCluster projectToPolytope).

(** Every entry of the table when the second loop ends. *)
Lemma shares_nth (c : Cluster) (refs : list Transcript) (j : nat) :
  nth_error (shares (run c refs)) j =
  if memb j (members c) then option_map (shareOf c) (nth_error refs j)
  else nth_error refs j.
Proof.
  rewrite processCluster_eq. cbn [shares].
  rewrite computeShares_nth, refreshMembers_nth.
  destruct (memb j (members c)); [|reflexivity].
  now destruct (nth_error refs j).
Qed.

Lemma memb_false (j : nat) (ids : list nat) : ~ In j ids -> memb j ids = false.
Proof.
  intros H. apply not_true_is_false. intros Hm. now apply memb_In in Hm.
Qed.

(** X12. The two member loops keep the number of entries of the table, leave
    the entry of every transcript that is not a member as it was, and of a
    member change nothing but the cached counts and [projectedCounts]:
    name, length, counts, mass and effective length stay. *)
Theorem share_stage_frame (c : Cluster) (refs : list Transcript) :
  List.length (shares (run c refs)) = List.length refs /\
  (forall j, ~ In j (members c) ->
             nth_error (shares (run c refs)) j = nth_error refs j) /\
  (forall j t', nth_error (shares (run c refs)) j = Some t' ->
     exists t, nth_error refs j = Some t /\
               RefName t' = RefName t /\ RefLength t' = RefLength t /\
               uniqueCount t' = uniqueCount t /\ totalCount t' = totalCount t /\
               mass t' = mass t /\
               cachedEffectiveLength t' = cachedEffectiveLength t).
Proof.
  split; [|split].
  - apply nth_error_length_eq. intros j. rewrite shares_nth.
    destruct (memb j (members c)); [|reflexivity].
    destruct (nth_error refs j); simpl; split; congruence.
  - intros j Hj. now rewrite shares_nth, (memb_false j _ Hj).
  - intros j t'. rewrite shares_nth.
    destruct (memb j (members c)).
    + destruct (nth_error refs j) as [t|]; [|discriminate].
      intros [= <-]. exists t. repeat split.
    + intros Hnth. exists t'. repeat split. exact Hnth.
Qed.

(** What a member adds to the flag is the same before and after the member
    loops. *)
Lemma shareOf_shareOf (c : Cluster) (t : Transcript) :
  shareOf c (shareOf c t) = shareOf c t.
Proof. reflexivity. Qed.

Lemma flag_term_shareOf (c : Cluster) (t : Transcript) :
  negb (deqb (mass (shareOf c t)) LOG_0) &&
    outside (rawShare c (shareOf c t)) (shareOf c t) =
  negb (deqb (mass t) LOG_0) && outside (rawShare c t) t.
Proof. reflexivity. Qed.

(** X13. Running the member loops a second time on the table they left
    changes nothing: the table is the same, and the flag is the flag of the
    first run. *)
Theorem share_stage_idempotent (c : Cluster) (refs : list Transcript) :
  shares (run c (shares (run c refs))) = shares (run c refs) /\
  requiresProjection (run c (shares (run c refs))) =
  requiresProjection (run c refs).
Proof.
  split.
  - apply nth_error_ext. intros j. rewrite !shares_nth.
    destruct (memb j (members c)); [|reflexivity].
    destruct (nth_error refs j); [|reflexivity].
    cbn [option_map]. now rewrite shareOf_shareOf.
  - rewrite !requiresProjection_existsb. apply existsb_In_ext.
    intros id Hid. apply memb_In in Hid. rewrite shares_nth, Hid.
    destruct (nth_error refs id) as [t|]; [|reflexivity].
    cbn [option_map]. apply flag_term_shareOf.
Qed.

(** X14. The table the member loops leave and the flag depend on which
    transcripts are members, not on the order of the member list nor on how
    often it names a transcript. *)
Theorem share_stage_member_set (m : double) (n : N) (ids ids' : list nat)
        (refs : list Transcript) :
  (forall j, In j ids <-> In j ids') ->
  shares (run (mkCluster m n ids) refs) = shares (run (mkCluster m n ids') refs) /\
  requiresProjection (run (mkCluster m n ids) refs) =
  requiresProjection (run (mkCluster m n ids') refs).
Proof.
  intros Hsame.
  assert (Hmemb : forall j, memb j ids = memb j ids').
  { intros j. apply eq_true_iff_eq. rewrite !memb_In. apply Hsame. }
  split.
  - apply nth_error_ext. intros j. rewrite !shares_nth. cbn [members].
    rewrite Hmemb. reflexivity.
  - rewrite !requiresProjection_existsb. cbn [members].
    rewrite (existsb_same_elements _ ids ids' Hsame). reflexivity.
Qed.
End ShareStageProperties.

(** X14 at the member lists [0; 1; 0] and [1; 0]. *)
Lemma share_stage_member_set_witness :
  let L := specialLibm in
  let M := sailfishMath L neg_infinity in
  let table := pairTable L 0 neg_infinity in
  shares (@processCluster (IEEE L) M (identityProjection L)
            (@mkCluster (IEEE L) 0%float 1 [0; 1; 0]%nat) table) =
  shares (@processCluster (IEEE L) M (identityProjection L)
            (@mkCluster (IEEE L) 0%float 1 [1; 0]%nat) table).
Proof.
  cbv zeta.
  refine (proj1 (@share_stage_member_set (IEEE specialLibm)
                   (sailfishMath specialLibm neg_infinity)
                   (identityProjection specialLibm) 0%float 1
                   [0; 1; 0]%nat [1; 0]%nat
                   (pairTable specialLibm 0 neg_infinity) _)).
  intros j. simpl. tauto.
Defined.

(** ** The loop over the clusters *)

Section ClusterLoopProperties.
Context {D : Double} {M : SailfishMath D}.

Local Abbreviation step projectToPolytope :=
  (fun '(refs, clusterID, warnings) c =>
     let run := processCluster projectToPolytope c refs in
     (table run, Datatypes.S clusterID,
      if warned run then warnings ++ [clusterID] else warnings)).

Lemma processClusters_warnings_from
      (projectToPolytope : Cluster -> list Transcript -> list Transcript)
      (cs : list Cluster) (refs : list Transcript) (k : nat) (w : list nat) :
  snd (fold_left (step projectToPolytope) cs (refs, k, w)) =
  w ++ zeroMassPositions cs k.
Proof.
  revert refs k w. induction cs as [|c cs IH]; intros refs k w;
    cbn [fold_left zeroMassPositions].
  - now rewrite app_nil_r.
  - rewrite IH, warned_eq.
    destruct (deqb (logMass c) LOG_0); [now rewrite <- app_assoc | reflexivity].
Qed.

(** X15. The warnings written name exactly the clusters whose log-mass
    equals [LOG_0], by their position in the cluster list counted from 0, in
    increasing order; neither the transcripts nor [projectToPolytope] have
    any influence on them. *)
Theorem processClusters_warnings
        (projectToPolytope : Cluster -> list Transcript -> list Transcript)
        (cs : list Cluster) (refs : list Transcript) :
  snd (processClusters projectToPolytope cs refs) = zeroMassPositions cs 0.
Proof.
  unfold processClusters.
  pose proof (processClusters_warnings_from projectToPolytope cs refs 0 []) as H.
  destruct (fold_left (step projectToPolytope) cs (refs, 0%nat, []))
    as [[refs' k] w].
  exact H.
Qed.

Lemma processCluster_small
      (p p' : Cluster -> list Transcript -> list Transcript)
      (c : Cluster) (refs : list Transcript) :
  (List.length (members c) <= 1)%nat ->
  projected (processCluster p c refs) = false /\
  processCluster p c refs = processCluster p' c refs.
Proof.
  intros Hsmall.
  assert (Hlt : (1 <? List.length (members c))%nat = false)
    by (apply Nat.ltb_ge; exact Hsmall).
  rewrite !processCluster_eq. cbv zeta. cbn [projected]. now rewrite Hlt.
Qed.

(** X16. When no cluster has more than one member, [projectToPolytope] is
    never called: the table the cluster loop leaves and the warnings are the
    same for any two projections. *)
Theorem processClusters_small_clusters
        (p p' : Cluster -> list Transcript -> list Transcript)
        (cs : list Cluster) (refs : list Transcript) :
  Forall (fun c => (List.length (members c) <= 1)%nat) cs ->
  Forall (fun c => forall refs', projected (processCluster p c refs') = false) cs /\
  processClusters p cs refs = processClusters p' cs refs.
Proof.
  intros Hsmall. split.
  - apply Forall_forall. intros c Hc refs'.
    rewrite Forall_forall in Hsmall.
    apply (processCluster_small p p' c refs' (Hsmall c Hc)).
  - unfold processClusters.
    assert (Hfold : forall st,
              fold_left (step p) cs st = fold_left (step p') cs st).
    { induction Hsmall as [|c cs Hc _ IH]; intros [[r k] w]; [reflexivity|].
      cbn [fold_left].
      rewrite (proj2 (processCluster_small p p' c r Hc)). apply IH. }
    now rewrite Hfold.
Qed.
End ClusterLoopProperties.

(** X16 at two one-member clusters and two projections. *)
Lemma processClusters_small_clusters_witness :
  let L := specialLibm in
  let M := sailfishMath L neg_infinity in
  let cs := [loneCluster L; massless1 L neg_infinity] in
  @processClusters (IEEE L) M (identityProjection L) cs (holder1 L) =
  @processClusters (IEEE L) M (lowerBoundProjection L) cs (holder1 L).
Proof.
  cbv zeta.
  refine (proj2 (@processClusters_small_clusters (IEEE specialLibm)
                   (sailfishMath specialLibm neg_infinity)
                   (identityProjection specialLibm)
                   (lowerBoundProjection specialLibm)
                   [loneCluster specialLibm; massless1 specialLibm neg_infinity]
                   (holder1 specialLibm) _)).
  repeat constructor.
Defined.

(** ** From the library to the rows *)

Section EndToEnd.
Context {D : Double} {M : SailfishMath D}.
Variable projectToPolytope : Cluster -> list Transcript -> list Transcript.

Lemma labels_shares (c : Cluster) (refs : list Transcript) :
  labels (shares (processCluster projectToPolytope c refs)) = labels refs.
Proof.
  unfold labels. apply nth_error_ext. intros j.
  rewrite !nth_error_map, shares_nth.
  destruct (memb j (members c)); [|reflexivity].
  now destruct (nth_error refs j).
Qed.

Lemma labels_normalize (sopt : SalmonOpts) (numMapped : N) (refs : list Transcript) :
  rowLabels (normalize sopt numMapped refs) = labels refs.
Proof.
  unfold rowLabels, labels, normalize. rewrite map_map. reflexivity.
Qed.

(** X17. If [projectToPolytope] keeps the names and lengths of the table it
    is given, [writeAbundances] writes one row for every transcript of the
    library, in the library's order, under the transcript's name and with
    its length, whatever the clusters are. *)
Theorem writeAbundances_row_labels (sopt : SalmonOpts) (alnLib : Library)
        (headerComments : string) :
  (forall c refs, labels (projectToPolytope c refs) = labels refs) ->
  rowLabels (rows (writeAbundances projectToPolytope sopt alnLib headerComments)) =
  labels (transcripts alnLib) /\
  List.length (rows (writeAbundances projectToPolytope sopt alnLib headerComments)) =
  List.length (transcripts alnLib).
Proof.
  intros Hkeep.
  assert (Hrun : forall c refs,
            labels (table (processCluster projectToPolytope c refs)) = labels refs).
  { intros c refs. rewrite table_eq.
    destruct (projected (processCluster projectToPolytope c refs));
      [rewrite Hkeep|]; apply labels_shares. }
  assert (Hloop : forall cs st,
            labels (fst (fst (fold_left
              (fun '(refs, clusterID, warnings) c =>
                 let run := processCluster projectToPolytope c refs in
                 (table run, Datatypes.S clusterID,
                  if warned run then warnings ++ [clusterID] else warnings))
              cs st))) = labels (fst (fst st))).
  { induction cs as [|c cs IH]; intros [[r k] w]; [reflexivity|].
    cbn [fold_left]. rewrite IH. cbn [fst]. apply Hrun. }
  assert (Hlabels :
            rowLabels (rows (writeAbundances projectToPolytope sopt alnLib
                                             headerComments)) =
            labels (transcripts alnLib)).
  { rewrite writeAbundances_rows, labels_normalize. unfold processClusters.
    specialize (Hloop (clusters alnLib) (transcripts alnLib, O, [])).
    destruct (fold_left _ (clusters alnLib) (transcripts alnLib, O, []))
      as [[r k] w].
    exact Hloop. }
  split; [exact Hlabels|].
  apply (f_equal (@List.length _)) in Hlabels.
  unfold rowLabels, labels in Hlabels. now rewrite !length_map in Hlabels.
Qed.
End EndToEnd.

(** X17 at a library of two transcripts in one cluster. *)
Lemma writeAbundances_row_labels_witness :
  let L := specialLibm in
  let lib := @mkLibrary (IEEE L) (pairTable L 0 neg_infinity) 1
                        [pairCluster L 0] in
  rowLabels (rows (@writeAbundances (IEEE L) (sailfishMath L neg_infinity)
                     (lowerBoundProjection L) (mkSalmonOpts false) lib "")) =
  [("t0"%string, 100%N); ("t1"%string, 100%N)].
Proof.
  cbv zeta.
  refine (proj1 (@writeAbundances_row_labels (IEEE specialLibm)
                   (sailfishMath specialLibm neg_infinity)
                   (lowerBoundProjection specialLibm) (mkSalmonOpts false)
                   (@mkLibrary (IEEE specialLibm)
                      (pairTable specialLibm 0 neg_infinity) 1
                      [pairCluster specialLibm 0]) "" _)).
  intros c refs. unfold labels, lowerBoundProjection. rewrite map_map.
  reflexivity.
Defined.

(** ** The normalizer in exact arithmetic *)

Section ExactNormalizer.
Local Open Scope R_scope.

Local Abbreviation Tr := (@Transcript Exact).

Local Abbreviation summand sopt numMapped t :=
  (exactDiv (exactDiv (projectedCounts t) (Some (IZR (Z.of_N numMapped))))
            (if noEffectiveLengthCorrection sopt
             then Some (IZR (Z.of_N (RefLength t)))
             else option_map exp (cachedEffectiveLength t))).

(** A sum of defined summands is defined. *)
Lemma tfracDenomOf_defined (sopt : SalmonOpts) (numMapped : N) (refs : list Tr)
      (ss : list R) (a : R) :
  Forall2 (fun t s => summand sopt numMapped t = Some s) refs ss ->
  fold_left (fun tfracDenom transcript =>
               lift2 Rplus tfracDenom (summand sopt numMapped transcript))
            refs (Some a) = Some (a + sumR ss).
Proof.
  intros Hss. revert a. induction Hss as [|t s refs ss Hs _ IH]; intros a;
    cbn [fold_left].
  - simpl. f_equal. lra.
  - rewrite Hs. cbn [lift2]. rewrite IH. simpl. f_equal. lra.
Qed.

(** What a defined summand is made of. *)
Lemma summand_inv (sopt : SalmonOpts) (numMapped : N) (t : Tr) (s : R) :
  summand sopt numMapped t = Some s ->
  exists c L, projectedCounts t = Some c /\
              (if noEffectiveLengthCorrection sopt
               then Some (IZR (Z.of_N (RefLength t)))
               else option_map exp (cachedEffectiveLength t)) = Some L /\
              IZR (Z.of_N numMapped) <> 0 /\ 0 < L /\
              s = c / IZR (Z.of_N numMapped) / L.
Proof.
  intros Hs. apply exactDiv_Some in Hs.
  destruct Hs as (npm & L & Hnpm & HL & HL0 & ->).
  apply exactDiv_Some in Hnpm.
  destruct Hnpm as (c & n & Hc & Hn & Hn0 & ->).
  injection Hn as <-.
  exists c, L. repeat split; try assumption.
  destruct (noEffectiveLengthCorrection sopt).
  - injection HL as <-.
    assert (0 <= IZR (Z.of_N (RefLength t))) by (apply IZR_le; lia). lra.
  - destruct (cachedEffectiveLength t) as [l|]; [|discriminate].
    injection HL as <-. apply exp_pos.
Qed.

Lemma summand_rescale (sopt : SalmonOpts) (n n' : N) (t : Tr) (s : R) :
  summand sopt n t = Some s -> IZR (Z.of_N n') <> 0 ->
  summand sopt n' t = Some (s * (IZR (Z.of_N n) / IZR (Z.of_N n'))).
Proof.
  intros Hs Hn'. apply summand_inv in Hs.
  destruct Hs as (c & L & Hc & HL & Hn & HL0 & ->).
  rewrite Hc, HL, (exactDiv_defined _ _ Hn'),
          (exactDiv_defined _ L) by lra.
  f_equal. field. repeat split; lra.
Qed.

Lemma sumR_scale (ss : list R) (k : R) :
  sumR (map (fun s => s * k) ss) = sumR ss * k.
Proof. induction ss as [|s ss IH]; simpl; [lra | rewrite IH; lra]. Qed.

Lemma N_nonzero (n : N) : n <> 0%N -> IZR (Z.of_N n) <> 0.
Proof. intros Hn H. apply eq_IZR in H. lia. Qed.

(** X18. In exact arithmetic the TPM column does not depend on
    [numMappedReads]: if it is defined for one number of mapped reads (the
    sum of pass 1 defined and not zero), every other number of mapped reads
    that is not zero gives the same TPM values. *)
Theorem tpm_independent_of_numMappedReads (sopt : SalmonOpts) (n n' : N)
        (refs : list Tr) (d : R) :
  tfracDenomOf sopt n refs = Some d -> d <> 0 -> n' <> 0%N ->
  map rowTPM (normalize sopt n' refs) = map rowTPM (normalize sopt n refs).
Proof.
  intros Hden Hd Hn'. apply N_nonzero in Hn'.
  unfold normalize. rewrite Hden.
  unfold tfracDenomOf in Hden. apply tfracDenomOf_fold in Hden.
  destruct Hden as (a0 & ss & Ha0 & Hss & Hsum).
  injection Ha0 as Ha0. simpl in Ha0.
  assert (Hd' : sumR ss = d) by lra. clear Hsum Ha0 a0.
  assert (Hn : IZR (Z.of_N n) <> 0).
  { destruct Hss as [|t s refs ss Hs _]; [simpl in Hd'; lra|].
    apply summand_inv in Hs. now destruct Hs as (c & L & _ & _ & Hn & _). }
  set (k := IZR (Z.of_N n) / IZR (Z.of_N n')).
  assert (Hk : k <> 0).
  { unfold k. intros H. apply Hn.
    apply (Rmult_eq_compat_r (IZR (Z.of_N n'))) in H.
    unfold Rdiv in H. rewrite Rmult_assoc, Rinv_l, Rmult_0_l in H by assumption.
    lra. }
  assert (Hss' : Forall2 (fun t s' => summand sopt n' t = Some s') refs
                         (map (fun s => s * k) ss)).
  { clear - Hss Hn'. induction Hss as [|t s refs ss Hs _ IH]; simpl;
      constructor; [now apply summand_rescale | exact IH]. }
  assert (Hden' : tfracDenomOf sopt n' refs = Some (d * k)).
  { unfold tfracDenomOf.
    change (fold_left (fun tfracDenom transcript =>
                lift2 Rplus tfracDenom (summand sopt n' transcript))
              refs (Some (IZR (Z.of_N 0))) = Some (d * k)).
    rewrite (tfracDenomOf_defined sopt n' refs _ _ Hss'), sumR_scale, Hd'.
    simpl. f_equal. lra. }
  rewrite Hden'.
  assert (Hdk : d * k <> 0) by (apply Rmult_integral_contrapositive; tauto).
  clear Hden' Hd'. induction Hss as [|t s refs ss Hs Hss IH]; [reflexivity|].
  cbn [map]. f_equal.
  - rewrite (rowTPM_summand sopt n' (d * k) (s * k) t Hdk
               (summand_rescale sopt n n' t s Hs Hn')),
            (rowTPM_summand sopt n d s t Hd Hs).
    f_equal. field. tauto.
  - apply IH. simpl in Hss'. now inversion Hss'.
Qed.

(** X18 at 4 and 9 mapped reads. *)
Lemma tpm_independent_of_numMappedReads_witness :
  map rowTPM (@normalize Exact (mkSalmonOpts true) 9 exactTable) =
  map rowTPM (@normalize Exact (mkSalmonOpts true) 4 exactTable).
Proof.
  apply (tpm_independent_of_numMappedReads (mkSalmonOpts true) 4 9 exactTable
           (1 / 4 / 2 + 3 / 4 / 4)%R).
  - unfold tfracDenomOf, exactTable. cbn -[exactDiv].
    rewrite !exactDiv_defined by lra. cbn. f_equal. lra.
  - lra.
  - discriminate.
Defined.

Lemma sumR_nonneg (ss : list R) : Forall (fun s => 0 <= s) ss -> 0 <= sumR ss.
Proof. induction 1 as [|s ss Hs _ IH]; simpl; lra. Qed.

(** X19. In exact arithmetic, when no count is negative and the sum of pass
    1 is defined and not zero, every TPM written is defined and lies between
    0 and 1e6. *)
Theorem tpm_bounds (sopt : SalmonOpts) (numMapped : N) (refs : list Tr) (d : R) :
  Forall (fun t => exists c, projectedCounts t = Some c /\ 0 <= c) refs ->
  tfracDenomOf sopt numMapped refs = Some d -> d <> 0 ->
  Forall (fun row => exists x, rowTPM row = Some x /\ 0 <= x <= 1000000)
         (normalize sopt numMapped refs).
Proof.
  intros Hcounts Hden Hd. unfold normalize. rewrite Hden.
  unfold tfracDenomOf in Hden. apply tfracDenomOf_fold in Hden.
  destruct Hden as (a0 & ss & Ha0 & Hss & Hsum).
  injection Ha0 as Ha0. simpl in Ha0.
  assert (Hd' : sumR ss = d) by lra. clear Hsum Ha0 a0.
  assert (Hnonneg : Forall (fun s => 0 <= s) ss).
  { clear - Hss Hcounts. induction Hss as [|t s refs ss Hs _ IH];
      constructor.
    - inversion Hcounts as [|? ? (c & Hc & Hc0) _]; subst.
      apply summand_inv in Hs.
      destruct Hs as (c' & L & Hc' & _ & Hn & HL & ->).
      rewrite Hc in Hc'. injection Hc' as <-.
      assert (0 <= IZR (Z.of_N numMapped)) by (apply IZR_le; lia).
      apply Rmult_le_pos; [apply Rmult_le_pos; [lra|] |];
        apply Rlt_le, Rinv_0_lt_compat; lra.
    - apply IH. now inversion Hcounts. }
  assert (Hpos : 0 < d) by (pose proof (sumR_nonneg ss Hnonneg); lra).
  assert (Hle : Forall (fun s => s <= d) ss).
  { subst d. clear - Hnonneg. induction Hnonneg as [|s ss Hs Hrest IH];
      constructor.
    - pose proof (sumR_nonneg ss Hrest). simpl. lra.
    - eapply Forall_impl; [|exact IH]. intros x Hx. simpl. lra. }
  clear Hd' Hcounts.
  induction Hss as [|t s refs ss Hs Hss IH]; cbn [map]; constructor.
  - exists (s / d * 1000000). split; [now apply rowTPM_summand|].
    inversion Hnonneg; inversion Hle; subst.
    assert (0 <= s / d) by (apply Rmult_le_pos; [lra | apply Rlt_le, Rinv_0_lt_compat; lra]).
    assert (s / d <= 1).
    { apply (Rmult_le_reg_r d); [exact Hpos|].
      unfold Rdiv. rewrite Rmult_assoc, Rinv_l by lra. lra. }
    lra.
  - apply IH; [now inversion Hnonneg | now inversion Hle].
Qed.

(** X19 at two transcripts of counts 1 and 3. *)
Lemma tpm_bounds_witness :
  Forall (fun row => exists x, rowTPM row = Some x /\ 0 <= x <= 1000000)
         (@normalize Exact (mkSalmonOpts true) 4 exactTable).
Proof.
  apply (tpm_bounds (mkSalmonOpts true) 4 exactTable (1 / 4 / 2 + 3 / 4 / 4)%R).
  - unfold exactTable. repeat constructor; eexists; (split; [reflexivity|simpl; lra]).
  - unfold tfracDenomOf, exactTable. cbn -[exactDiv].
    rewrite !exactDiv_defined by lra. cbn. f_equal. lra.
  - lra.
Defined.

(** X20. In exact arithmetic the FPKM of a transcript with a count [c] is 0
    when [c] is not positive, whether or not the lengths and the number of
    mapped reads have logarithms; when [c] is positive, reads were mapped
    and the logarithm [l] of the effective length is defined, it is
    [1e9 * c / (exp l * numMappedReads)]. *)
Theorem fpkm_closed_form (sopt : SalmonOpts) (numMapped : N)
        (tfracDenom : option R) (t : Tr) (c : R) :
  projectedCounts t = Some c ->
  (c <= 0 -> rowFPKM (rowOf sopt numMapped tfracDenom t) = Some 0) /\
  (forall l, 0 < c -> numMapped <> 0%N ->
             logEffectiveLength sopt t = Some l ->
             rowFPKM (rowOf sopt numMapped tfracDenom t) =
             Some (1000000000 * c / (exp l * IZR (Z.of_N numMapped)))).
Proof.
  intros Hc. split.
  - intros Hle. unfold rowOf, dgtb. cbn [rowFPKM dltb of_N Exact].
    rewrite Hc. unfold exactLtb. simpl.
    destruct (Rlt_dec 0 c); [lra | reflexivity].
  - intros l Hpos Hn Hl. unfold logEffectiveLength in Hl.
    assert (Hn0 : 0 < IZR (Z.of_N numMapped)).
    { assert (0 <= IZR (Z.of_N numMapped)) by (apply IZR_le; lia).
      pose proof (N_nonzero numMapped Hn). lra. }
    unfold rowOf, dgtb. cbn [rowFPKM dltb dmul dsub dexp dlog of_N Exact].
    cbn [dlog of_N Exact] in Hl. rewrite Hl, Hc.
    unfold exactLog, exactLtb.
    destruct (Rlt_dec 0 (IZR (Z.of_N 1000000000))) as [_|Hb]; [|simpl in Hb; lra].
    destruct (Rlt_dec 0 (IZR (Z.of_N numMapped))) as [_|Hb]; [|contradiction].
    destruct (Rlt_dec (IZR (Z.of_N 0)) c) as [_|Hb]; [|simpl in Hb; lra].
    cbn [lift2 option_map]. f_equal.
    unfold Rminus. rewrite !exp_plus, !exp_Ropp, !exp_ln by (simpl; lra).
    simpl. field. split; [lra | apply Rgt_not_eq, exp_pos].
Qed.

(** X20 at a count of 3, 4 mapped reads and effective length [exp 0]. *)
Lemma fpkm_closed_form_witness :
  rowFPKM (@rowOf Exact (mkSalmonOpts false) 4 None
             (@mkTranscript Exact "t0" 2 1 1 (Some 0%R) (Some 0%R) 1 1 (Some 3%R))) =
  Some (1000000000 * 3 / (exp 0 * 4))%R.
Proof.
  apply (proj2 (fpkm_closed_form (mkSalmonOpts false) 4 None
                  (@mkTranscript Exact "t0" 2 1 1 (Some 0%R) (Some 0%R) 1 1 (Some 3%R))
                  3%R eq_refl) 0%R).
  - lra.
  - discriminate.
  - reflexivity.
Defined.
End ExactNormalizer.

(** ** The shares of a cluster in exact arithmetic *)

Section ExactShares.
Local Open Scope R_scope.
Context {M : SailfishMath Exact}.
Variable projectToPolytope :
  @Cluster Exact -> list (@Transcript Exact) -> list (@Transcript Exact).

Local Abbreviation run := (processCluster projectToPolytope).

(** The share of a member whose mass [m] is not [LOG_0], in a cluster of
    log-mass [cm] with a positive number of hits. *)
Lemma exact_share (c : @Cluster Exact) (refs : list (@Transcript Exact))
      (id : nat) (t : @Transcript Exact) (m cm : R) :
  In id (members c) -> nth_error refs id = Some t ->
  mass t = Some m -> deqb (mass t) LOG_0 = false ->
  logMass c = Some cm -> (0 < numHits c)%N ->
  exists t', nth_error (shares (run c refs)) id = Some t' /\
             projectedCounts t' =
             Some (exp m / exp cm * IZR (Z.of_N (numHits c))).
Proof.
  intros Hin Hnth Hm Hne Hcm Hhits.
  eexists. split; [exact (shares_member _ c refs id t Hin Hnth)|].
  cbn [projectedCounts setProjectedCounts]. rewrite Hne.
  unfold rawShare. cbn [dexp dadd dsub dlog of_N Exact].
  rewrite Hm, Hcm. unfold exactLog.
  assert (Hpos : 0 < IZR (Z.of_N (numHits c))) by (apply IZR_lt; lia).
  destruct (Rlt_dec 0 (IZR (Z.of_N (numHits c)))) as [_|Hb]; [|contradiction].
  cbn [lift2 option_map]. f_equal.
  unfold Rminus, Rdiv. now rewrite !exp_plus, exp_Ropp, exp_ln.
Qed.

(** X21. In exact arithmetic the raw shares of a cluster add up to its
    number of hits, when the cluster's mass is the sum of the masses of its
    members ([exp logMass] the sum of [exp mass] over the member list), no
    member's mass is [LOG_0] and the cluster has a hit. *)
Theorem shares_sum_to_numHits (c : @Cluster Exact) (refs : list (@Transcript Exact))
        (ms : list R) (cm : R) :
  Forall2 (fun id m => exists t, nth_error refs id = Some t /\
                                 mass t = Some m /\
                                 deqb (mass t) LOG_0 = false)
          (members c) ms ->
  logMass c = Some cm -> exp cm = sumR (map exp ms) -> (0 < numHits c)%N ->
  exists xs,
    Forall2 (fun id x => exists t', nth_error (shares (run c refs)) id = Some t' /\
                                    projectedCounts t' = Some x)
            (members c) xs /\
    sumR xs = IZR (Z.of_N (numHits c)).
Proof.
  intros Hms Hcm Hsum Hhits.
  exists (map (fun m => exp m / exp cm * IZR (Z.of_N (numHits c))) ms). split.
  - assert (Hgen : forall ids,
              (forall id, In id ids -> In id (members c)) ->
              forall ms',
              Forall2 (fun id m => exists t, nth_error refs id = Some t /\
                                             mass t = Some m /\
                                             deqb (mass t) LOG_0 = false) ids ms' ->
              Forall2 (fun id x =>
                         exists t', nth_error (shares (run c refs)) id = Some t' /\
                                    projectedCounts t' = Some x)
                      ids (map (fun m => exp m / exp cm * IZR (Z.of_N (numHits c))) ms')).
    { intros ids Hincl ms' H. induction H as [|id m ids ms' (t & Hnth & Hm & Hne) _ IH];
        simpl; constructor.
      - apply (exact_share c refs id t m cm); auto. apply Hincl. now left.
      - apply IH. intros x Hx. apply Hincl. now right. }
    apply Hgen; [auto | exact Hms].
  - assert (Hscale : forall l,
              sumR (map (fun m => exp m / exp cm * IZR (Z.of_N (numHits c))) l) =
              sumR (map exp l) / exp cm * IZR (Z.of_N (numHits c))).
    { induction l as [|m l IH]; simpl; [lra | rewrite IH; lra]. }
    rewrite Hscale, <- Hsum. field. apply Rgt_not_eq, exp_pos.
Qed.
End ExactShares.

(** X21 at a cluster of three hits: its two members have masses
    [ln 1] and [ln 2], its log-mass is [ln 3], and [LOG_0] is undefined. *)
Lemma shares_sum_to_numHits_witness :
  let M := @Build_SailfishMath Exact None (Some 0%R) (Some (ln (1 / 2))) (Some (ln (1 / 10))) in
  let refs := [@mkTranscript Exact "t0" 2 1 1 (Some (ln 1)) (Some 0%R) 0 0 (Some 0%R);
               @mkTranscript Exact "t1" 4 1 2 (Some (ln 2)) (Some 0%R) 0 0 (Some 0%R)] in
  let c := @mkCluster Exact (Some (ln 3)) 3 [0; 1]%nat in
  exists xs,
    Forall2 (fun id x =>
               exists t', nth_error (shares (@processCluster Exact M (fun _ r => r) c refs)) id
                          = Some t' /\ projectedCounts t' = Some x)
            (members c) xs /\
    sumR xs = 3%R.
Proof.
  cbv zeta.
  apply (@shares_sum_to_numHits
           (@Build_SailfishMath Exact None (Some 0%R) (Some (ln (1 / 2))) (Some (ln (1 / 10))))
           (fun _ r => r)
           (@mkCluster Exact (Some (ln 3)) 3 [0; 1]%nat)
           [@mkTranscript Exact "t0" 2 1 1 (Some (ln 1)) (Some 0%R) 0 0 (Some 0%R);
            @mkTranscript Exact "t1" 4 1 2 (Some (ln 2)) (Some 0%R) 0 0 (Some 0%R)]
           [ln 1; ln 2] (ln 3)).
  - repeat constructor; eexists; repeat split; reflexivity.
  - reflexivity.
  - simpl. rewrite !exp_ln by lra. lra.
  - reflexivity.
Defined.
